(** * Key-triple surfacing pipeline (doc/notebooks/key_triples_walkthrough.ipynb)

    A shallow embedding of the notebook's cells: loading and de-duplicating
    the observed triples (cell 3), ranking node changes (cell 5), scoring
    triples and selecting the top rows (cell 6), labelling them (cell 7).

    Scores are Python floats and numpy float64 values; they are modelled by
    Rocq's primitive binary64 floats, with Python's [<] and numpy's sort
    comparison written out.  Entity, relation and node ids are numpy int64
    values on which no arithmetic is done; they are modelled by [Z].
    Positions in arrays are [nat].  A Python dict whose order is observed
    is an association list in insertion order; a dict that is only read by
    key is a [gmap]. *)

From Stdlib Require Import ZArith Lia Floats Sorting.Sorted.
From stdpp Require Import gmap strings list sorting.

(** * Definitions *)

(** ** Comparison of binary64 values *)

Module F64.

(** Python's [x < y] on floats. *)
Definition lt (x y : float) : bool := PrimFloat.ltb x y.

(** Python's [x == y] on floats. *)
Definition eq (x y : float) : bool := PrimFloat.eqb x y.

(** [x != x] holds exactly for NaN. *)
Definition is_nan (x : float) : bool := negb (eq x x).

(** [math.isfinite(x)]: a number, neither NaN nor an infinity. *)
Definition is_finite (x : float) : bool :=
  match Prim2SF x with
  | S754_zero _ | S754_finite _ _ _ => true
  | _ => false
  end.

(** numpy's sort comparison for floating types (npysort, [FLOAT_LT]):
    [a < b || (b != b && a == a)], which orders NaN after every number. *)
Definition np_lt (a b : float) : bool :=
  lt a b || (is_nan b && negb (is_nan a)).

(** A rank for specification floats: [SFcompare] is the lexicographic
    order of these ranks, and NaN is ranked last as [np_lt] has it. *)
Definition rank (f : spec_float) : Z * Z * Z :=
  match f with
  | S754_nan => (3, 0, 0)
  | S754_infinity true => (-2, 0, 0)
  | S754_infinity false => (2, 0, 0)
  | S754_zero _ => (0, 0, 0)
  | S754_finite true m e => (-1, - e, - Z.pos m)
  | S754_finite false m e => (1, e, Z.pos m)
  end%Z.

Definition lex_lt (p q : Z * Z * Z) : Prop :=
  (p.1.1 < q.1.1 ∨
   (p.1.1 = q.1.1 ∧ (p.1.2 < q.1.2 ∨ (p.1.2 = q.1.2 ∧ p.2 < q.2))))%Z.

(** [np_lt] read on specification floats. *)
Definition sf_np_lt (a b : spec_float) : bool :=
  SFltb a b || (negb (SFeqb b b) && negb (negb (SFeqb a a))).

End F64.

(** ** Insertion sort

    [insert_by skip x l] walks [l] past every element [y] with [skip y x]
    and puts [x] in front of the first one it may not skip. *)

Fixpoint insert_by {A : Type} (skip : A → A → bool) (x : A) (l : list A) : list A :=
  match l with
  | [] => [x]
  | y :: l' => if skip y x then y :: insert_by skip x l' else x :: y :: l'
  end.

(** The sorted prefix is held from its right end ([run], last element
    first), so that the scan of the insertion loop,
    [while (pj > pl && LT(vp, v[*pk])) *pj-- = *pk--;], is the recursion of
    [insert_by]: the new element moves past every [y] it is strictly
    smaller than and stays behind the ones it ties with. *)
Definition insertion_run {A : Type} (lt : A → A → bool) (l : list A) : list A :=
  foldl (λ run x, insert_by (λ y x, lt x y) x run) [] l.

Definition insertion_sort {A : Type} (lt : A → A → bool) (l : list A) : list A :=
  reverse (insertion_run lt l).

(** Python's [sorted(l, key=key)] on float keys.  [sorted] is stable and
    ascending; for keys under a strict weak order the stable ascending
    arrangement is unique, and the stable insertion sort returns it. *)
Definition py_sorted {A : Type} (key : A → float) (l : list A) : list A :=
  insertion_sort (λ a b, F64.lt (key a) (key b)) l.


Definition item (a : list float) (i : nat) : float := default 0%float (a !! i).

Definition argsort (a : list float) : list nat :=
  insertion_sort (λ i j, F64.np_lt (item a i) (item a j)) (seq 0 (length a)).

(** ** Data *)

(** A row [(head, tail, relation)] of the triples array. *)
Abbreviation triple := (Z * Z * Z)%type.

(** Exceptions.  [LookupError] is what subscripting a lookup table with an
    id it does not hold raises (Python's [KeyError] for a mapping and
    [IndexError] for a sequence are both [LookupError]s); [IndexError] is
    kept for out-of-range positions in the arrays of the notebook. *)
Inductive exn : Type := LookupError | IndexError.

(** What the variable [t] of cell 7 can be bound to: a row of [top], then
    one int64 of that row. *)
Inductive value : Type :=
| Row (row : triple)
| Int64 (z : Z).

(** The dict stored under each triple id, with the source's keys. *)
Module Result.
Record t : Type := { idxs : value; label : string; score : float }.
End Result.

(** [d[k] = v] on an insertion-ordered dict: an existing key keeps its
    place, a new key goes last. *)
Fixpoint dict_set {K V : Type} `{EqDecision K} (d : list (K * V)) (k : K) (v : V)
  : list (K * V) :=
  match d with
  | [] => [(k, v)]
  | (k', v') :: d' =>
      if decide (k' = k) then (k, v) :: d' else (k', v') :: dict_set d' k v
  end.

Fixpoint dict_get {K V : Type} `{EqDecision K} (d : list (K * V)) (k : K) : option V :=
  match d with
  | [] => None
  | (k', v') :: d' => if decide (k' = k) then Some v' else dict_get d' k
  end.

(** [{k: v for k, v in items}] *)
Definition dict_of_items {K V : Type} `{EqDecision K} (items : list (K * V))
  : list (K * V) :=
  foldl (λ d kv, dict_set d kv.1 kv.2) [] items.

(** [enumerate(l)] *)
Definition enumerate {A : Type} (l : list A) : list (nat * A) :=
  imap (λ i x, (i, x)) l.

(** [l[:k]] for a Python int [k]: a negative [k] counts from the end.
    [slice_stop k n] is the number of entries kept of [n]. *)
Definition slice_stop (k : Z) (n : nat) : nat :=
  if (0 <=? k)%Z then Z.to_nat k `min` n else n - Z.to_nat (- k).

Definition slice_to {A : Type} (k : Z) (l : list A) : list A :=
  take (slice_stop k (length l)) l.

(** ** Cell 3: the observed triples *)

(** Rows compared column by column, as numpy compares the rows viewed as
    records of three int64 fields. *)
Definition row_lt (a b : triple) : bool :=
  let '(h1, t1, r1) := a in
  let '(h2, t2, r2) := b in
  ((h1 <? h2) || ((h1 =? h2) && ((t1 <? t2) || ((t1 =? t2) && (r1 <? r2)))))%Z.

(** [aux[mask]] for [mask[1:] = aux[1:] != aux[:-1]]: the rows that differ
    from their predecessor. *)
Fixpoint changes (prev : triple) (aux : list triple) : list triple :=
  match aux with
  | [] => []
  | x :: aux' => if decide (x = prev) then changes x aux' else x :: changes x aux'
  end.

(** [np.unique(ar, axis=0)]: sort the rows, keep the first of each run of
    equal rows. *)
Definition np_unique (ar : list triple) : list triple :=
  match insertion_sort row_lt ar with
  | [] => []
  | x :: aux => x :: changes x aux
  end.

(** The [triples] array of cell 3, from the integer rows of the file in
    file order. *)
Definition observed_triples (rows : list triple) : list triple := np_unique rows.

(** The reading of the specification: de-duplicated rows in file order,
    each at its first occurrence.  Compared with [observed_triples] below. *)
Fixpoint first_occurrences_from (seen rows : list triple) : list triple :=
  match rows with
  | [] => []
  | x :: rows' =>
      if decide (x ∈ seen) then first_occurrences_from seen rows'
      else x :: first_occurrences_from (x :: seen) rows'
  end.

Definition first_occurrences (rows : list triple) : list triple :=
  first_occurrences_from [] rows.

(** ** Cell 5: ranking the node changes *)

(** [d.get(node, 0)] on a score mapping. *)
Definition get0 (d : gmap Z float) (node : Z) : float := default 0%float (d !! node).

(** Modelled from the spec: [build_comparison_metrics] and
    [generate_node_changes] (module [calculate_network_change]) are not
    part of the sources at hand.  Per section 4.3 the iteration is over the
    keys of the observed mapping, which visits each of its items once, and
    [delta = candidate_scores.get(node, 0) - observed_scores[node]]. *)
Definition generate_node_changes
  (observed_scores : list (Z * float)) (candidate_scores : gmap Z float)
  : list (Z * float) :=
  (λ item, (item.1, (get0 candidate_scores item.1 - item.2)%float)) <$> observed_scores.

(** [{k: v for k, v in sorted(result.items(), key=lambda item: item[1])}] *)
Definition sort_changes (result : list (Z * float)) : list (Z * float) :=
  dict_of_items (py_sorted snd result).

Definition rank_changes
  (observed_scores : list (Z * float)) (candidate_scores : gmap Z float)
  : list (Z * float) :=
  sort_changes (generate_node_changes observed_scores candidate_scores).

Inductive mode : Type := top_mode | bottom_mode.

(** Modelled from the spec: [generate_result_lists] (module
    [calculate_network_change]) is not part of the sources at hand.  Per
    section 4.3, "top" returns the last [n] entries of the ascending
    ranking and "bottom" the first [n]; an [n] larger than the ranking
    returns the whole ranking. *)
Definition generate_result_lists (ranking : list (Z * float)) (n : nat) (m : mode)
  : list (Z * float) :=
  match m with
  | top_mode => drop (length ranking - n) ranking
  | bottom_mode => take n ranking
  end.

(** The selection read as the mapping that cell 6 queries with [.get]. *)
Definition gains_of (selection : list (Z * float)) : gmap Z float :=
  list_to_map selection.

(** ** Cell 6: scoring the triples and selecting the top rows *)

(** [head, tail, _ = trip] and [gains.get(head, 0) + gains.get(tail, 0)] *)
Definition row_score (gains : gmap Z float) (trip : triple) : float :=
  let '(head, tail, _) := trip in
  (get0 gains head + get0 gains tail)%float.

(** The loop body: [trip_scores[i] = ...]. *)
Definition score_row (gains : gmap Z float) (scores : list float) (it : nat * triple)
  : list float :=
  <[it.1 := row_score gains it.2]> scores.

(** [np.zeros(n)] filled by the loop over [enumerate(triples)]. *)
Definition trip_scores (triples : list triple) (gains : gmap Z float) : list float :=
  foldl (score_row gains) (replicate (length triples) 0%float) (enumerate triples).

(** [trip_scores.argsort()[::-1]] *)
Definition idxs (trip_scores : list float) : list nat := reverse (argsort trip_scores).


(** [triples[idxs,]]: the rows at the given positions; [None] stands for
    numpy's [IndexError] on a position outside the array. *)
Definition rows_at (triples : list triple) (positions : list nat) : option (list triple) :=
  mapM (λ i, triples !! i) positions.

(** [triples[idxs,][:num_results,:]] *)
Definition top (triples : list triple) (positions : list nat) (num_results : Z)
  : option (list triple) :=
  slice_to num_results <$> rows_at triples positions.

(** ** Cell 7: labelling *)

(** Modelled from the spec: [get_items] (module [calculate_network_change]),
    which loads [ents] and [rels], is not part of the sources at hand.  Per
    section 6 a lookup table is held in memory as a mapping keyed by
    integer id. *)
Abbreviation lookup_table := (gmap Z string).

(** [" ".join([ents[h], rels[r], ents[t]])]; [None] stands for the
    [LookupError] of a subscript with an id that the table does not hold. *)
Definition label_of (ents rels : lookup_table) (h t r : Z) : option string :=
  eh ← ents !! h;
  er ← rels !! r;
  et ← ents !! t;
  Some (String.concat " " [eh; er; et]).

(** One pass of the loop body on the row [row] met at position [i].  The
    unpacking [h, t, r = t] rebinds the loop variable [t], until then the
    row, to the second column of the row, and that int64 is the [t] stored
    under ['idxs']. *)
Definition label_step (ents rels : lookup_table) (positions : list nat)
  (scores : list float) (i : nat) (row : triple)
  (results : list (nat * Result.t)) : exn + list (nat * Result.t) :=
  match positions !! i with
  | None => inl IndexError
  | Some triple_id =>
      let '(h, t, r) := row in
      match scores !! triple_id with
      | None => inl IndexError
      | Some score =>
          match label_of ents rels h t r with
          | None => inl LookupError
          | Some label =>
              inr (dict_set results triple_id
                     {| Result.idxs := Int64 t;
                        Result.label := label;
                        Result.score := score |})
          end
      end
  end.

(** The loop over [enumerate(top)], from position [i] on.  It returns the
    [results] dict as the loop leaves it and the exception that ended the
    loop, if one did. *)
Fixpoint label_loop (ents rels : lookup_table) (positions : list nat)
  (scores : list float) (i : nat) (rows : list triple)
  (results : list (nat * Result.t)) : list (nat * Result.t) * option exn :=
  match rows with
  | [] => (results, None)
  | row :: rows' =>
      match label_step ents rels positions scores i row results with
      | inl e => (results, Some e)
      | inr results' => label_loop ents rels positions scores (S i) rows' results'
      end
  end.

(** Cells 6 and 7 on given scores: the selection and the labelling. *)
Definition top_k (triples : list triple) (scores : list float) (num_results : Z)
  (ents rels : lookup_table) : list (nat * Result.t) * option exn :=
  match top triples (idxs scores) num_results with
  | None => ([], Some IndexError)
  | Some rows => label_loop ents rels (idxs scores) scores 0 rows []
  end.

(** Cells 6 and 7 as the notebook runs them. *)
Definition key_triples (triples : list triple) (gains : gmap Z float) (num_results : Z)
  (ents rels : lookup_table) : list (nat * Result.t) * option exn :=
  top_k triples (trip_scores triples gains) num_results ents rels.

(** Cells 3 and 5 to 7 in sequence, from the integer rows of the file,
    the two centrality mappings under comparison and the lookup tables.
    Cell 5 selects with [n = len(result)] and mode ['top']. *)
Definition surface_key_triples (rows : list triple)
  (observed_scores : list (Z * float)) (candidate_scores : gmap Z float)
  (num_results : Z) (ents rels : lookup_table)
  : list (nat * Result.t) * option exn :=
  let triples := observed_triples rows in
  let result := rank_changes observed_scores candidate_scores in
  let gains := gains_of (generate_result_lists result (length result) top_mode) in
  key_triples triples gains num_results ents rels.

(** ** Orders of entries, for the statements on sorting *)

(** [x] occurs in [l] at a position before one of [y]. *)
Definition precedes {A : Type} (l : list A) (x y : A) : Prop :=
  ∃ i j, i < j ∧ l !! i = Some x ∧ l !! j = Some y.

(** * Theorems *)

(** ** The order of binary64 values *)

Module F64_facts.
Import F64.

Lemma SFeqb_refl_nan f :
  SFeqb f f = match f with S754_nan => false | _ => true end.
Proof.
  destruct f as [s|s| |s m e]; try destruct s; try reflexivity;
    unfold SFeqb, SFcompare; rewrite Z.compare_refl;
    change (Pos.compare_cont Eq m m) with (Pos.compare m m);
    rewrite Pos.compare_refl; reflexivity.
Qed.

Lemma sf_np_lt_rank a b : sf_np_lt a b = true ↔ lex_lt (rank a) (rank b).
Proof.
  unfold sf_np_lt. rewrite (SFeqb_refl_nan a), (SFeqb_refl_nan b).
  destruct a as [sa|sa| |sa ma ea], b as [sb|sb| |sb mb eb];
    try destruct sa; try destruct sb;
    unfold SFltb, SFcompare, lex_lt; simpl;
    try (split; [intros; lia | intros; (reflexivity || (exfalso; lia))]);
    try (split; [discriminate | intros; lia]);
    change (Pos.compare_cont Eq ma mb) with (Pos.compare ma mb);
    destruct (Z.compare_spec ea eb); destruct (Pos.compare_spec ma mb);
    simpl; split; intros; try reflexivity; try discriminate; try lia.
Qed.

Lemma np_lt_spec a b : np_lt a b = sf_np_lt (Prim2SF a) (Prim2SF b).
Proof.
  unfold np_lt, sf_np_lt, is_nan, lt, eq.
  rewrite FloatAxioms.ltb_spec, !FloatAxioms.eqb_spec. reflexivity.
Qed.

Lemma np_lt_rank a b :
  np_lt a b = true ↔ lex_lt (rank (Prim2SF a)) (rank (Prim2SF b)).
Proof. rewrite np_lt_spec. apply sf_np_lt_rank. Qed.

(** [np_lt] is a strict weak order on all binary64 values, NaN included. *)
Lemma np_lt_asym a b : np_lt a b = true → np_lt b a = false.
Proof.
  intros H. apply not_true_is_false. intros H'.
  apply np_lt_rank in H, H'. unfold lex_lt in *. lia.
Qed.

Lemma np_lt_cotrans a b c :
  np_lt a c = true → np_lt a b = true ∨ np_lt b c = true.
Proof. rewrite !np_lt_rank. unfold lex_lt. lia. Qed.

(** On values that are not NaN, numpy's comparison is Python's [<]. *)
Lemma np_lt_number a b :
  is_nan a = false → is_nan b = false → np_lt a b = lt a b.
Proof.
  intros Ha Hb. unfold np_lt. rewrite Hb. simpl. apply orb_false_r.
Qed.

Lemma np_lt_false_lt a b : np_lt a b = false → lt a b = false.
Proof. unfold np_lt. intros H. by apply orb_false_iff in H as [? _]. Qed.

(** Values that compare equal are tied in numpy's order. *)
Lemma eq_np_tie a b : eq a b = true → np_lt a b = false ∧ np_lt b a = false.
Proof.
  intros H. unfold eq in H. rewrite FloatAxioms.eqb_spec in H.
  rewrite !np_lt_spec.
  assert (Hr : rank (Prim2SF a) = rank (Prim2SF b)).
  { revert H. generalize (Prim2SF a) (Prim2SF b).
    intros x y. unfold SFeqb, SFcompare.
    destruct x as [sx|sx| |sx mx ex], y as [sy|sy| |sy my ey];
      try destruct sx; try destruct sy; simpl; try discriminate; auto;
      change (Pos.compare_cont Eq mx my) with (Pos.compare mx my);
      destruct (Z.compare_spec ex ey); destruct (Pos.compare_spec mx my);
      simpl; try discriminate; intros _; subst; reflexivity. }
  split; apply not_true_is_false; intros H'; apply sf_np_lt_rank in H';
    unfold lex_lt in H'; rewrite Hr in H'; lia.
Qed.


(** *** Doubling

    Adding a binary64 value to itself and multiplying it by two round to
    the same value: both are exact unless they overflow to the same
    infinity.  Proved on the specification of the two operations. *)

Local Open Scope Z_scope.

(** The value [2.0]. *)
Lemma two_SF : Prim2SF 2%float = S754_finite false 4503599627370496 (-51).
Proof. vm_compute. reflexivity. Qed.

(** A mantissa that already sits at its exponent is rounded to itself. *)
Lemma round_exact_in_place s p e :
  fexp prec emax (Zpos (digits2_pos p) + e) = e -> e <= 971 ->
  binary_round_aux prec emax s (Zpos p) e loc_Exact = S754_finite s p e.
Proof.
  intros Hf He.
  assert (H0 : fexp prec emax (Zdigits2 (Zpos p) + e) - e = 0).
  { simpl Zdigits2. lia. }
  unfold binary_round_aux, shr_fexp.
  rewrite H0.
  cbn [shr shr_record_of_loc round_nearest_even loc_of_shr_record shr_m].
  rewrite H0.
  cbn [shr shr_record_of_loc round_nearest_even loc_of_shr_record shr_m].
  change (emax - prec) with 971.
  destruct (Z.leb_spec e 971); [reflexivity|lia].
Qed.

Lemma digits2_iter_xO p n :
  Zpos (digits2_pos (Pos.iter xO p n)) = Zpos (digits2_pos p) + Zpos n.
Proof.
  induction n as [|n IH] using Pos.peano_ind.
  - simpl. lia.
  - rewrite Pos.iter_succ. simpl digits2_pos. lia.
Qed.

(** A mantissa that ends in [n] zero bits and sits [n] below its exponent
    is rounded to the mantissa without them. *)
Lemma round_exact_shifted s p e n :
  SpecFloat.iter_pos shr_1 n {| shr_m := Zpos (Pos.iter xO p n); shr_r := false; shr_s := false |}
    = {| shr_m := Zpos p; shr_r := false; shr_s := false |} ->
  fexp prec emax (Zpos (digits2_pos p) + (e + Zpos n)) = e + Zpos n ->
  binary_round_aux prec emax s (Zpos (Pos.iter xO p n)) e loc_Exact =
  if e + Zpos n <=? 971 then S754_finite s p (e + Zpos n) else S754_infinity s.
Proof.
  intros Hiter Hf.
  assert (H1 : fexp prec emax (Zdigits2 (Zpos (Pos.iter xO p n)) + e) - e = Zpos n).
  { cbn [Zdigits2]. rewrite digits2_iter_xO.
    unfold fexp, emin in *. change prec with 53 in *. change emax with 1024 in *. lia. }
  assert (H0 : fexp prec emax (Zdigits2 (Zpos p) + (e + Zpos n)) - (e + Zpos n) = 0).
  { cbn [Zdigits2]. lia. }
  unfold binary_round_aux, shr_fexp.
  rewrite H1.
  cbn [shr shr_record_of_loc round_nearest_even loc_of_shr_record shr_m].
  rewrite Hiter.
  cbn [shr shr_record_of_loc round_nearest_even loc_of_shr_record shr_m].
  rewrite H0.
  cbn [shr shr_record_of_loc round_nearest_even loc_of_shr_record shr_m].
  reflexivity.
Qed.

(** Doubling on a finite specification float, normal or subnormal. *)
Lemma SF_double s m e :
  valid_binary (S754_finite s m e) = true ->
  SF64add (S754_finite s m e) (S754_finite s m e) =
  SF64mul (S754_finite false 4503599627370496 (-51)) (S754_finite s m e).
Proof.
  intros Hv. unfold valid_binary, SpecFloat.valid_binary, bounded, canonical_mantissa in Hv.
  apply andb_true_iff in Hv as [Hc He].
  apply Z.eqb_eq in Hc. apply Z.leb_le in He.
  change (emax - prec) with 971 in He.
  unfold SF64add, SF64mul, SFadd, SFmul.
  unfold shl_align at 1 2. rewrite Z.min_id, Z.sub_diag. cbn [fst].
  assert (Hsum : cond_Zopp s (Zpos m) + cond_Zopp s (Zpos m) = cond_Zopp s (Zpos (xO m))).
  { destruct s; unfold cond_Zopp; lia. }
  rewrite Hsum. clear Hsum.
  assert (Hbn : binary_normalize prec emax (cond_Zopp s (Zpos (xO m))) e false
              = binary_round prec emax s (xO m) e).
  { destruct s; reflexivity. }
  rewrite Hbn. clear Hbn.
  change (xorb false s) with s.
  change (Pos.mul 4503599627370496 m) with (Pos.iter xO m 52).
  unfold binary_round.
  assert (Hd : Zpos (digits2_pos (xO m)) = Zpos (digits2_pos m) + 1).
  { simpl. lia. }
  assert (Hcases : Zpos (digits2_pos m) = 53 \/ (Zpos (digits2_pos m) < 53 /\ e = -1074)).
  { unfold fexp, emin in Hc. change prec with 53 in Hc. change emax with 1024 in Hc. lia. }
  destruct Hcases as [Hn|[Hsub ->]].
  - (* normal *)
    assert (Hsh : shl_align (xO m) e (fexp prec emax (Zpos (digits2_pos (xO m)) + e)) = ((xO m), e)).
    { unfold shl_align. rewrite Hd. unfold fexp, emin in *.
      change prec with 53 in *. change emax with 1024 in *.
      replace (Z.max (Zpos (digits2_pos m) + 1 + e - 53) (3 - 1024 - 53) - e) with 1 by lia.
      reflexivity. }
    rewrite Hsh.
    change (Z.pos (xO m)) with (Z.pos (Pos.iter xO m 1)).
    rewrite (round_exact_shifted s m e 1) by
      (try reflexivity; unfold fexp, emin in *; change prec with 53 in *; change emax with 1024 in *; lia).
    replace (-51 + e) with (e - 51) by lia.
    rewrite (round_exact_shifted s m (e - 51) 52) by
      (try reflexivity; unfold fexp, emin in *; change prec with 53 in *; change emax with 1024 in *; lia).
    replace (e - 51 + 52) with (e + 1) by lia. reflexivity.
  - (* subnormal *)
    assert (Hsh : shl_align (xO m) (-1074) (fexp prec emax (Zpos (digits2_pos (xO m)) + -1074)) = ((xO m), -1074)).
    { unfold shl_align. rewrite Hd. unfold fexp, emin in *.
      change prec with 53 in *. change emax with 1024 in *.
      replace (Z.max (Zpos (digits2_pos m) + 1 + -1074 - 53) (3 - 1024 - 53) - -1074) with 0 by lia.
      reflexivity. }
    rewrite Hsh.
    rewrite round_exact_in_place; [| rewrite Hd; unfold fexp, emin; change prec with 53; change emax with 1024; lia | lia].
    change (-51 + -1074) with (-1125).
    change (Pos.iter xO m 52) with (Pos.iter xO (xO m) 51).
    rewrite (round_exact_shifted s (xO m) (-1125) 51) by
      (try reflexivity; rewrite ?Hd; unfold fexp, emin in *; change prec with 53 in *; change emax with 1024 in *; lia).
    reflexivity.
Qed.

Lemma double_add_mul (x : float) : (x + x = 2 * x)%float.
Proof.
  apply Prim2SF_inj. rewrite add_spec, mul_spec, two_SF.
  pose proof (Prim2SF_valid x) as Hv.
  destruct (Prim2SF x) as [s|s| |s m e].
  - destruct s; reflexivity.
  - destruct s; reflexivity.
  - reflexivity.
  - apply SF_double; exact Hv.
Qed.

(** *** Differences of finite values

    The difference of two finite binary64 values may overflow to an
    infinity but is never NaN. *)

(** Shifting and rounding keep a mantissa non-negative. *)
Lemma shr_1_nonneg mrs : 0 <= shr_m mrs → 0 <= shr_m (shr_1 mrs).
Proof. destruct mrs as [[|[p|p|]|[p|p|]] r s]; simpl; lia. Qed.

Lemma iter_pos_nonneg n mrs :
  0 <= shr_m mrs → 0 <= shr_m (SpecFloat.iter_pos shr_1 n mrs).
Proof.
  revert mrs. induction n as [n IH|n IH|]; intros mrs H; simpl.
  - apply IH, IH, shr_1_nonneg, H.
  - apply IH, IH, H.
  - apply shr_1_nonneg, H.
Qed.

Lemma shr_fexp_nonneg m e l :
  0 <= m → 0 <= shr_m (shr_fexp prec emax m e l).1.
Proof.
  intros H. unfold shr_fexp, shr.
  assert (H0 : 0 <= shr_m (shr_record_of_loc m l)).
  { destruct l as [|[]]; simpl; lia. }
  destruct (fexp prec emax (Zdigits2 m + e) - e); simpl; [done| |done].
  by apply iter_pos_nonneg.
Qed.

Lemma round_nearest_even_nonneg m l : 0 <= m → 0 <= round_nearest_even m l.
Proof.
  intros H. destruct l as [|[]]; simpl; try lia.
  destruct (Z.even m); lia.
Qed.

Lemma binary_round_aux_not_nan s m e l :
  0 <= m → binary_round_aux prec emax s m e l ≠ S754_nan.
Proof.
  intros H. unfold binary_round_aux.
  pose proof (shr_fexp_nonneg m e l H) as H1.
  destruct (shr_fexp prec emax m e l) as [mrs' e']. simpl in H1.
  pose proof (shr_fexp_nonneg
    (round_nearest_even (shr_m mrs') (loc_of_shr_record mrs')) e' loc_Exact
    (round_nearest_even_nonneg _ _ H1)) as H2.
  destruct (shr_fexp prec emax _ e' loc_Exact) as [mrs'' e'']. simpl in H2.
  destruct (shr_m mrs''); [done| |lia].
  by destruct (e'' <=? emax - prec).
Qed.

Lemma binary_normalize_not_nan m e szero :
  binary_normalize prec emax m e szero ≠ S754_nan.
Proof.
  unfold binary_normalize, binary_round.
  destruct m as [|p|p]; [done| |];
    destruct (shl_align _ _ _) as [mz ez]; by apply binary_round_aux_not_nan.
Qed.

Lemma sub_finite_number (x y : float) :
  is_finite x = true → is_finite y = true → is_nan (x - y) = false.
Proof.
  unfold is_finite, is_nan, eq. intros Hx Hy.
  rewrite FloatAxioms.eqb_spec, FloatAxioms.sub_spec.
  assert (Hn : SF64sub (Prim2SF x) (Prim2SF y) ≠ S754_nan).
  { unfold SF64sub, SFsub.
    destruct (Prim2SF x) as [sx|sx| |sx mx ex]; try done;
    destruct (Prim2SF y) as [sy|sy| |sy my ey]; try done.
    - by destruct sx, sy.
    - apply binary_normalize_not_nan. }
  destruct (SF64sub (Prim2SF x) (Prim2SF y)) as [s|s| |s m e]; try done.
  - unfold SFeqb, SFcompare. by destruct s.
  - unfold SFeqb, SFcompare. rewrite Z.compare_refl.
    change (Pos.compare_cont Eq m m) with (Pos.compare m m).
    rewrite Pos.compare_refl. by destruct s.
Qed.

Local Close Scope Z_scope.

End F64_facts.

(** ** Insertion sort *)

Section insertion.
Context {A : Type}.

Lemma insert_by_Permutation (skip : A → A → bool) x l :
  insert_by skip x l ≡ₚ x :: l.
Proof.
  induction l as [|y l IH]; simpl; [done|].
  destruct (skip y x); [|done].
  rewrite IH. apply Permutation_swap.
Qed.

Lemma insert_by_ext (skip skip' : A → A → bool) x l :
  (∀ y, y ∈ l → skip y x = skip' y x) →
  insert_by skip x l = insert_by skip' x l.
Proof.
  induction l as [|y l IH]; simpl; intros H; [done|].
  rewrite <- (H y) by left.
  destruct (skip y x); [|done].
  f_equal. apply IH. intros z Hz. apply H. by right.
Qed.

(** Inserting keeps the run sorted for any relation [R] that the skip test
    respects. *)
Lemma insert_by_sorted (R : relation A) (skip : A → A → bool) x l :
  (∀ y, y ∈ l → skip y x = true → R y x) →
  (∀ y, y ∈ l → skip y x = false → R x y) →
  (∀ y z, y ∈ l → z ∈ l → skip y x = false → R y z → R x z) →
  StronglySorted R l →
  StronglySorted R (insert_by skip x l).
Proof.
  intros Hskip Hstop Hpast Hs.
  induction Hs as [|y l Hs IH Hy]; simpl.
  - repeat constructor.
  - destruct (skip y x) eqn:E.
    + constructor.
      * apply IH.
        -- intros z Hz. apply Hskip. by right.
        -- intros z Hz. apply Hstop. by right.
        -- intros z w Hz Hw. apply Hpast; by right.
      * rewrite insert_by_Permutation. constructor; [|done].
        apply Hskip; [left|done].
    + constructor; [by constructor|].
      constructor.
      * apply Hstop; [left|done].
      * rewrite Forall_forall in Hy |- *. intros z Hz.
        apply (Hpast y z); [left|by right|done|by apply Hy].
Qed.

Context (lt : A → A → bool).

Lemma insertion_run_snoc l x :
  insertion_run lt (l ++ [x]) =
  insert_by (λ y x, lt x y) x (insertion_run lt l).
Proof. unfold insertion_run. by rewrite foldl_snoc. Qed.

Lemma insertion_run_Permutation l : insertion_run lt l ≡ₚ l.
Proof.
  induction l as [|x l IH] using rev_ind; [done|].
  rewrite insertion_run_snoc, insert_by_Permutation, IH.
  by rewrite Permutation_app_comm.
Qed.

Lemma insertion_sort_Permutation l : insertion_sort lt l ≡ₚ l.
Proof.
  unfold insertion_sort.
  by rewrite reverse_Permutation, insertion_run_Permutation.
Qed.

(** The run is sorted for every relation [R] that each insertion respects;
    the hypotheses speak of an element [x] of the input and of elements
    [y], [z] that come before it there. *)
Lemma insertion_run_sorted (R : relation A) l :
  (∀ l1 x l2 y, l = l1 ++ x :: l2 → y ∈ l1 → lt x y = true → R y x) →
  (∀ l1 x l2 y, l = l1 ++ x :: l2 → y ∈ l1 → lt x y = false → R x y) →
  (∀ l1 x l2 y z, l = l1 ++ x :: l2 → y ∈ l1 → z ∈ l1 →
                  lt x y = false → R y z → R x z) →
  StronglySorted R (insertion_run lt l).
Proof.
  induction l as [|x l IH] using rev_ind; intros Hskip Hstop Hpast.
  { constructor. }
  rewrite insertion_run_snoc.
  apply insert_by_sorted.
  - intros y Hy. rewrite insertion_run_Permutation in Hy.
    by apply (Hskip l x []).
  - intros y Hy. rewrite insertion_run_Permutation in Hy.
    by apply (Hstop l x []).
  - intros y z Hy Hz. rewrite insertion_run_Permutation in Hy, Hz.
    by apply (Hpast l x []).
  - apply IH.
    + intros l1 x' l2 y ->. apply (Hskip l1 x' (l2 ++ [x])).
      by rewrite <- app_assoc.
    + intros l1 x' l2 y ->. apply (Hstop l1 x' (l2 ++ [x])).
      by rewrite <- app_assoc.
    + intros l1 x' l2 y z ->. apply (Hpast l1 x' (l2 ++ [x])).
      by rewrite <- app_assoc.
Qed.

Lemma insertion_run_ext (lt' : A → A → bool) l :
  (∀ x y, x ∈ l → y ∈ l → lt x y = lt' x y) →
  insertion_run lt l = insertion_run lt' l.
Proof.
  induction l as [|x l IH] using rev_ind; intros H; [done|].
  rewrite insertion_run_snoc. unfold insertion_run at 2. rewrite foldl_snoc.
  fold (insertion_run lt' l).
  rewrite <- IH by (intros; apply H; set_solver).
  apply insert_by_ext. intros y Hy.
  rewrite insertion_run_Permutation in Hy.
  apply H; set_solver.
Qed.

(** A strict weak order makes the run non-increasing. *)
Lemma insertion_run_descending l :
  (∀ x y, lt x y = true → lt y x = false) →
  (∀ x y z, lt x z = true → lt x y = true ∨ lt y z = true) →
  StronglySorted (λ x y, lt x y = false) (insertion_run lt l).
Proof.
  intros Hasym Hco. apply insertion_run_sorted.
  - intros _ x _ y _ _. apply Hasym.
  - done.
  - intros _ x _ y z _ _ _ Hxy Hyz.
    destruct (lt x z) eqn:E; [|done].
    destruct (Hco x y z E); congruence.
Qed.

End insertion.

Lemma StronglySorted_reverse {A} (R : relation A) l :
  StronglySorted R l → StronglySorted (flip R) (reverse l).
Proof.
  induction 1 as [|x l Hs IH Hx]; [constructor|].
  rewrite reverse_cons. apply StronglySorted_app_2; [|done|by repeat constructor].
  intros y z Hy Hz. apply list_elem_of_singleton in Hz as ->.
  rewrite Forall_forall in Hx. apply Hx. by apply elem_of_reverse.
Qed.

Lemma insertion_sort_ascending {A} (lt : A → A → bool) l :
  (∀ x y, lt x y = true → lt y x = false) →
  (∀ x y z, lt x z = true → lt x y = true ∨ lt y z = true) →
  StronglySorted (λ x y, lt y x = false) (insertion_sort lt l).
Proof.
  intros Hasym Hco. unfold insertion_sort.
  apply (StronglySorted_reverse (λ x y, lt x y = false)).
  by apply insertion_run_descending.
Qed.

(** Pairs of positions of a strongly sorted list are related. *)
Lemma StronglySorted_lookup {A} (R : relation A) l p q x y :
  StronglySorted R l → p < q → l !! p = Some x → l !! q = Some y → R x y.
Proof.
  intros Hs. revert p q.
  induction Hs as [|z l Hs IH Hz]; intros p q Hpq Hp Hq; [done|].
  destruct q as [|q]; [lia|]. destruct p as [|p]; simpl in *.
  - injection Hp as ->. rewrite Forall_forall in Hz.
    apply Hz. by eapply list_elem_of_lookup_2.
  - apply (IH p q); [lia|done..].
Qed.

(** ** Cell 6: the triple scores *)

Lemma scores_loop gains (l : list triple) (pre suf : list float) :
  foldl (score_row gains) (pre ++ replicate (length l) 0%float ++ suf)
        (imap (λ i x, (length pre + i, x)) l)
  = pre ++ (row_score gains <$> l) ++ suf.
Proof.
  revert pre. induction l as [|x l IH]; intros pre; [done|].
  simpl. unfold score_row at 2. simpl.
  rewrite insert_app_r. simpl.
  rewrite (imap_ext _ (λ i y, (length (pre ++ [row_score gains x]) + i, y))).
  2:{ intros i y _. simpl. rewrite length_app. simpl. f_equal. lia. }
  rewrite (cons_middle _ pre), app_assoc. rewrite IH.
  by rewrite <- app_assoc.
Qed.

(** The loop stores at each position the score of the row met there. *)
Lemma trip_scores_fmap triples gains :
  trip_scores triples gains = row_score gains <$> triples.
Proof.
  unfold trip_scores, enumerate.
  pose proof (scores_loop gains triples [] []) as H.
  simpl in H. rewrite !app_nil_r in H. exact H.
Qed.

Lemma trip_scores_length triples gains :
  length (trip_scores triples gains) = length triples.
Proof. by rewrite trip_scores_fmap, length_fmap. Qed.

(** C1: the score at index [i] of the triple [(h, t, r)] met there is
    [gains.get(h, 0) + gains.get(t, 0)]; it does not depend on [r]; an id
    that [gains] does not hold counts as [0]; the scoring is a total
    function, and it returns one score per triple. *)
Theorem trip_scores_spec (triples : list triple) (gains : gmap Z float)
    (i : nat) (h t r : Z) :
  triples !! i = Some (h, t, r) →
  trip_scores triples gains !! i = Some (get0 gains h + get0 gains t)%float ∧
  (∀ r', trip_scores (<[i := (h, t, r')]> triples) gains = trip_scores triples gains) ∧
  (gains !! h = None → get0 gains h = 0%float) ∧
  (gains !! t = None → get0 gains t = 0%float) ∧
  length (trip_scores triples gains) = length triples.
Proof.
  intros Hi. rewrite !trip_scores_fmap.
  split; [|split; [|split; [|split]]].
  - by rewrite list_lookup_fmap, Hi.
  - intros r'. rewrite trip_scores_fmap, list_fmap_insert.
    apply list_insert_id. by rewrite list_lookup_fmap, Hi.
  - unfold get0. by intros ->.
  - unfold get0. by intros ->.
  - apply length_fmap.
Qed.

Lemma trip_scores_spec_witness :
  let triples := [(1, 2, 0); (2, 3, 0)]%Z in
  let gains : gmap Z float := {[ 1%Z := 0.5%float ]} in
  trip_scores triples gains !! 0 = Some (get0 gains 1 + get0 gains 2)%float ∧
  (∀ r', trip_scores (<[0 := (1, 2, r')%Z]> triples) gains = trip_scores triples gains) ∧
  (gains !! 1%Z = None → get0 gains 1 = 0%float) ∧
  (gains !! 2%Z = None → get0 gains 2 = 0%float) ∧
  length (trip_scores triples gains) = length triples.
Proof.
  intros triples gains.
  apply (trip_scores_spec triples gains 0 1 2 0).
  reflexivity.
Defined.

(** C9: a self-loop triple [(h, h, r)] is scored exactly twice
    [g = gains.get(h, 0)]: the loop adds [g] as head and [g] again as
    tail, and in binary64 [g + g] is [2 * g]. *)
Theorem self_loop_score (triples : list triple) (gains : gmap Z float)
    (i : nat) (h r : Z) :
  triples !! i = Some (h, h, r) →
  trip_scores triples gains !! i = Some (get0 gains h + get0 gains h)%float ∧
  trip_scores triples gains !! i = Some (2 * get0 gains h)%float.
Proof.
  intros Hi. rewrite <- F64_facts.double_add_mul.
  rewrite trip_scores_fmap.
  by rewrite list_lookup_fmap, Hi.
Qed.

Lemma self_loop_score_witness :
  let triples := [(1, 2, 0); (4, 4, 1)]%Z in
  let gains : gmap Z float := {[ 4%Z := 0.375%float ]} in
  trip_scores triples gains !! 1 = Some (get0 gains 4 + get0 gains 4)%float ∧
  trip_scores triples gains !! 1 = Some (2 * get0 gains 4)%float.
Proof.
  intros triples gains.
  apply (self_loop_score triples gains 1 4 1).
  reflexivity.
Defined.

Example run_self_loop :
  trip_scores [(1, 2, 0); (4, 4, 1)]%Z {[ 4%Z := 0.375%float ]}
  = [0%float; 0.75%float].
Proof. vm_compute. reflexivity. Qed.

(** ** Cell 6: the order of the selection *)

Section selection.
Context (scores : list float).

Let by_score (i j : nat) : bool := F64.np_lt (item scores i) (item scores j).

(** The double reversal of [argsort()[::-1]] leaves the run of the
    insertion sort. *)
Lemma idxs_run : idxs scores = insertion_run by_score (seq 0 (length scores)).
Proof. unfold idxs, argsort, insertion_sort. apply reverse_involutive. Qed.

Lemma idxs_Permutation : idxs scores ≡ₚ seq 0 (length scores).
Proof. rewrite idxs_run. apply insertion_run_Permutation. Qed.

Lemma idxs_length : length (idxs scores) = length scores.
Proof. by rewrite idxs_Permutation, length_seq. Qed.

Lemma idxs_NoDup : NoDup (idxs scores).
Proof. rewrite idxs_Permutation. apply NoDup_seq. Qed.

Lemma idxs_bound i : i ∈ idxs scores ↔ i < length scores.
Proof. rewrite idxs_Permutation, elem_of_seq. lia. Qed.

Lemma seq_split_lt s n l1 x l2 y :
  seq s n = l1 ++ x :: l2 → y ∈ l1 → y < x.
Proof.
  intros E Hy.
  apply list_elem_of_lookup in Hy as [p Hp].
  assert (Hx : seq s n !! length l1 = Some x).
  { rewrite E. by rewrite list_lookup_middle. }
  assert (Hy : seq s n !! p = Some y).
  { rewrite E. by apply lookup_app_l_Some. }
  apply lookup_seq in Hx as [-> _]. apply lookup_seq in Hy as [-> _].
  apply lookup_lt_Some in Hp. lia.
Qed.

(** Along [idxs] no score is smaller than a later one, and of two tied
    scores the one with the larger index comes first. *)
Lemma idxs_sorted :
  StronglySorted
    (λ i j, by_score i j = false ∧ (by_score j i = false → j < i))
    (idxs scores).
Proof.
  rewrite idxs_run. apply insertion_run_sorted.
  - intros l1 x l2 y E Hy Hlt. split.
    + by apply F64_facts.np_lt_asym.
    + intros H. unfold by_score in *. congruence.
  - intros l1 x l2 y E Hy Hlt. split; [done|].
    intros _. by eapply seq_split_lt.
  - intros l1 x l2 y z E Hy Hz Hxy [Hyz _]. split.
    + destruct (by_score x z) eqn:Hxz; [|done].
      destruct (F64_facts.np_lt_cotrans _ (item scores y) _ Hxz);
        unfold by_score in *; congruence.
    + intros _. by eapply seq_split_lt.
Qed.

Lemma idxs_order p q i j :
  p < q → idxs scores !! p = Some i → idxs scores !! q = Some j →
  i ≠ j ∧
  F64.lt (item scores i) (item scores j) = false ∧
  (F64.eq (item scores i) (item scores j) = true → j < i).
Proof.
  intros Hpq Hp Hq.
  destruct (StronglySorted_lookup _ _ p q i j idxs_sorted Hpq Hp Hq) as [H1 H2].
  split; [|split].
  - intros ->. pose proof (NoDup_lookup _ _ _ _ idxs_NoDup Hp Hq). lia.
  - by apply F64_facts.np_lt_false_lt.
  - intros He. apply H2. by apply F64_facts.eq_np_tie in He as [_ ?].
Qed.

(** The selected rows are the rows that [idxs] points to, in that order,
    up to the stop of the slice. *)
Lemma top_rows (triples : list triple) (k : Z) :
  length scores = length triples →
  ∃ rows, top triples (idxs scores) k = Some rows ∧
    length rows = slice_stop k (length triples) ∧
    ∀ p, rows !! p =
         if decide (p < slice_stop k (length triples))
         then idxs scores !! p ≫= (triples !!.) else None.
Proof.
  intros Hlen. unfold top, rows_at.
  destruct (mapM (λ i, triples !! i) (idxs scores)) as [all|] eqn:E.
  2:{ apply mapM_None, Exists_exists in E as (i & Hi & Hnone).
      apply idxs_bound in Hi. apply lookup_ge_None in Hnone. lia. }
  apply mapM_Some in E.
  assert (Hall : length all = length triples).
  { rewrite <- (Forall2_length _ _ _ E), idxs_length. done. }
  exists (slice_to k all). split; [done|].
  unfold slice_to. rewrite Hall. split.
  { rewrite length_take, Hall. unfold slice_stop. destruct (0 <=? k)%Z; lia. }
  intros p. case_decide as Hp.
  - rewrite lookup_take_lt by done.
    destruct (idxs scores !! p) as [i|] eqn:Hi; simpl.
    + destruct (Forall2_lookup_l _ _ _ _ _ E Hi) as (row & -> & Hrow). done.
    + apply lookup_ge_None in Hi. apply lookup_ge_None.
      rewrite <- (Forall2_length _ _ _ E). done.
  - apply lookup_ge_None. rewrite length_take. lia.
Qed.

End selection.




(** ** Cell 3: the observed triples *)

Lemma row_lt_spec (a b : triple) :
  row_lt a b = true ↔
  (a.1.1 < b.1.1 ∨
   (a.1.1 = b.1.1 ∧ (a.1.2 < b.1.2 ∨ (a.1.2 = b.1.2 ∧ a.2 < b.2))))%Z.
Proof.
  destruct a as [[h1 t1] r1], b as [[h2 t2] r2]. unfold row_lt. simpl.
  rewrite !orb_true_iff, !andb_true_iff, !orb_true_iff, !andb_true_iff.
  rewrite !Z.ltb_lt, !Z.eqb_eq. tauto.
Qed.

Lemma row_lt_false (a b : triple) :
  row_lt a b = false ↔ ¬ row_lt a b = true.
Proof. by destruct (row_lt a b). Qed.

Lemma row_lt_asym a b : row_lt a b = true → row_lt b a = false.
Proof. rewrite row_lt_false, !row_lt_spec. lia. Qed.

Lemma row_lt_irrefl a : ¬ row_lt a a = true.
Proof. intros H. pose proof (row_lt_asym a a H). congruence. Qed.

Lemma row_lt_cotrans a b c :
  row_lt a c = true → row_lt a b = true ∨ row_lt b c = true.
Proof. rewrite !row_lt_spec. lia. Qed.

Lemma row_lt_total a b : row_lt a b = false → row_lt b a = false → a = b.
Proof.
  rewrite !row_lt_false, !row_lt_spec.
  destruct a as [[h1 t1] r1], b as [[h2 t2] r2]. simpl.
  intros H1 H2. repeat f_equal; lia.
Qed.

Lemma changes_elem_of prev aux y :
  y ∈ prev :: changes prev aux ↔ y ∈ prev :: aux.
Proof.
  revert prev. induction aux as [|x aux IH]; intros prev; simpl; [done|].
  case_decide as E.
  - subst x. rewrite IH, !elem_of_cons. tauto.
  - rewrite !(elem_of_cons _ y prev), IH. done.
Qed.

(** Dropping the repeats from a non-decreasing list of rows leaves a
    strictly increasing one. *)
Lemma changes_sorted prev aux :
  StronglySorted (λ a b, row_lt b a = false) (prev :: aux) →
  StronglySorted (λ a b, row_lt a b = true) (prev :: changes prev aux).
Proof.
  revert prev. induction aux as [|x aux IH]; intros prev Hs; simpl.
  { repeat constructor. }
  apply StronglySorted_cons in Hs as [Hprev Hs].
  case_decide as E.
  - subst x. by apply IH.
  - constructor; [by apply IH|].
    apply Forall_forall. intros y Hy.
    apply (proj1 (changes_elem_of x aux y)) in Hy.
    rewrite Forall_forall in Hprev.
    assert (Hpx : row_lt prev x = true).
    { destruct (row_lt prev x) eqn:Hpx; [done|].
      destruct E. symmetry. apply row_lt_total; [done|].
      apply Hprev. left. }
    assert (Hxy : row_lt y x = false).
    { apply elem_of_cons in Hy as [->|Hy].
      - destruct (row_lt x x) eqn:Hxx; [|done].
        by rewrite (row_lt_asym _ _ Hxx) in Hxx.
      - apply StronglySorted_cons in Hs as [Hx _].
        rewrite Forall_forall in Hx. by apply Hx. }
    destruct (row_lt_cotrans prev y x Hpx); [done|congruence].
Qed.

Lemma StronglySorted_irrefl_NoDup {A} (R : relation A) l :
  (∀ x, ¬ R x x) → StronglySorted R l → NoDup l.
Proof.
  intros Hirr. induction 1 as [|x l Hs IH Hx]; constructor; [|done].
  intros Hin. rewrite Forall_forall in Hx. by apply (Hirr x), Hx.
Qed.

(** C3, as the code has it: the observed triples are the distinct rows of
    the file in ascending order of (head, tail, relation), each once; the
    order of the rows in the file is not kept. *)
Theorem observed_triples_sorted (rows : list triple) :
  StronglySorted (λ a b, row_lt a b = true) (observed_triples rows) ∧
  NoDup (observed_triples rows) ∧
  ∀ x, x ∈ observed_triples rows ↔ x ∈ rows.
Proof.
  assert (Hsort : StronglySorted (λ a b, row_lt b a = false)
                    (insertion_sort row_lt rows)).
  { apply insertion_sort_ascending; [apply row_lt_asym|apply row_lt_cotrans]. }
  assert (Hperm := insertion_sort_Permutation row_lt rows).
  unfold observed_triples, np_unique.
  destruct (insertion_sort row_lt rows) as [|x aux].
  { apply Permutation_nil_l in Hperm as <-. repeat split; (constructor || done). }
  assert (Hs := changes_sorted x aux Hsort).
  split; [done|split].
  - apply (StronglySorted_irrefl_NoDup _ _ row_lt_irrefl Hs).
  - intros y. by rewrite changes_elem_of, Hperm.
Qed.

(** C3, as the specification states it, fails: two rows given in
    descending order come out swapped, not in file order. *)
Lemma observed_triples_not_file_order :
  observed_triples [(2, 3, 0); (1, 2, 0)]%Z = [(1, 2, 0); (2, 3, 0)]%Z ∧
  first_occurrences [(2, 3, 0); (1, 2, 0)]%Z = [(2, 3, 0); (1, 2, 0)]%Z ∧
  observed_triples [(2, 3, 0); (1, 2, 0)]%Z ≠ first_occurrences [(2, 3, 0); (1, 2, 0)]%Z.
Proof.
  assert (E1 : observed_triples [(2, 3, 0); (1, 2, 0)]%Z = [(1, 2, 0); (2, 3, 0)]%Z)
    by (vm_compute; reflexivity).
  assert (E2 : first_occurrences [(2, 3, 0); (1, 2, 0)]%Z = [(2, 3, 0); (1, 2, 0)]%Z)
    by (vm_compute; reflexivity).
  split; [exact E1|split; [exact E2|]].
  rewrite E1, E2. discriminate.
Qed.

(** ** Cell 5: the ranking of node changes *)

Lemma dict_set_fresh {K V} `{EqDecision K} (d : list (K * V)) k v :
  k ∉ d.*1 → dict_set d k v = d ++ [(k, v)].
Proof.
  induction d as [|[k' v'] d IH]; simpl; intros Hk; [done|].
  apply not_elem_of_cons in Hk as [Hne Hk].
  case_decide; [congruence|]. by rewrite IH.
Qed.

Lemma dict_set_items {K V} `{EqDecision K} (acc items : list (K * V)) :
  NoDup (acc ++ items).*1 →
  foldl (λ d kv, dict_set d kv.1 kv.2) acc items = acc ++ items.
Proof.
  revert acc. induction items as [|[k v] items IH]; intros acc Hnd; simpl.
  { by rewrite app_nil_r. }
  rewrite fmap_app in Hnd. simpl in Hnd.
  rewrite dict_set_fresh.
  2:{ apply NoDup_app in Hnd as (_ & Hdisj & _). intros Hk.
      apply (Hdisj k Hk). left. }
  rewrite IH, <- app_assoc; [done|].
  by rewrite <- app_assoc, fmap_app.
Qed.

(** A dict built from items with distinct keys holds the items as given. *)
Lemma dict_of_items_NoDup {K V} `{EqDecision K} (items : list (K * V)) :
  NoDup items.*1 → dict_of_items items = items.
Proof. intros Hnd. by apply (dict_set_items [] items). Qed.

Lemma StronglySorted_impl {A} (R R' : relation A) l :
  (∀ x y, R x y → R' x y) → StronglySorted R l → StronglySorted R' l.
Proof.
  intros HR. induction 1 as [|x l Hs IH Hx]; constructor; [done|].
  eapply Forall_impl; [exact Hx|]. auto.
Qed.

Lemma py_sorted_Permutation {A} (key : A → float) l : py_sorted key l ≡ₚ l.
Proof. apply insertion_sort_Permutation. Qed.

(** On keys that are numbers, [sorted] returns a non-decreasing list: no
    entry has a key smaller than the key of an entry before it. *)
Lemma py_sorted_ascending {A} (key : A → float) l :
  (∀ x, x ∈ l → F64.is_nan (key x) = false) →
  StronglySorted (λ x y, F64.lt (key y) (key x) = false) (py_sorted key l).
Proof.
  intros Hnum. unfold py_sorted, insertion_sort.
  rewrite <- (insertion_run_ext (λ a b, F64.np_lt (key a) (key b))).
  2:{ intros x y Hx Hy. apply F64_facts.np_lt_number; by apply Hnum. }
  apply (StronglySorted_impl (λ x y, F64.np_lt (key y) (key x) = false)).
  { intros x y. apply F64_facts.np_lt_false_lt. }
  apply (insertion_sort_ascending (λ a b, F64.np_lt (key a) (key b))).
  - intros x y. apply F64_facts.np_lt_asym.
  - intros x y z. apply F64_facts.np_lt_cotrans.
Qed.

Lemma generate_node_changes_keys observed_scores candidate_scores :
  (generate_node_changes observed_scores candidate_scores).*1 = observed_scores.*1.
Proof.
  unfold generate_node_changes. rewrite <- list_fmap_compose.
  by apply list_fmap_ext.
Qed.

Lemma sort_changes_sorted result :
  NoDup result.*1 → sort_changes result = py_sorted snd result.
Proof.
  intros Hnd. apply dict_of_items_NoDup.
  by rewrite py_sorted_Permutation.
Qed.

(** The ranking when no delta is NaN. *)
Lemma rank_changes_numbers
    (observed_scores : list (Z * float)) (candidate_scores : gmap Z float) :
  NoDup observed_scores.*1 →
  (∀ node a, (node, a) ∈ observed_scores →
     F64.is_nan (get0 candidate_scores node - a)%float = false) →
  length (rank_changes observed_scores candidate_scores) = length observed_scores ∧
  (rank_changes observed_scores candidate_scores).*1 ≡ₚ observed_scores.*1 ∧
  (∀ node delta,
     (node, delta) ∈ rank_changes observed_scores candidate_scores ↔
     ∃ a, (node, a) ∈ observed_scores ∧
          delta = (get0 candidate_scores node - a)%float) ∧
  StronglySorted (λ x y, F64.lt y.2 x.2 = false)
    (rank_changes observed_scores candidate_scores).
Proof.
  intros Hnd Hnum. unfold rank_changes.
  rewrite sort_changes_sorted by by rewrite generate_node_changes_keys.
  assert (Hperm := py_sorted_Permutation snd
            (generate_node_changes observed_scores candidate_scores)).
  split; [|split; [|split]].
  - rewrite Hperm. unfold generate_node_changes. by rewrite length_fmap.
  - by rewrite Hperm, generate_node_changes_keys.
  - intros node delta. rewrite Hperm. unfold generate_node_changes.
    rewrite list_elem_of_fmap. split.
    + intros ([node' a] & [= -> ->] & Hin). by exists a.
    + intros (a & Hin & ->). by exists (node, a).
  - apply py_sorted_ascending. intros [node delta] Hin.
    unfold generate_node_changes in Hin.
    apply list_elem_of_fmap in Hin as ([node' a] & [= -> ->] & Hin).
    simpl. by apply Hnum.
Qed.

(** C4: for an observed mapping (a dict: its keys are distinct) and a
    candidate mapping of finite scores, the ranking has one entry per key
    of the observed mapping and no other (a node that only the candidate
    mapping holds is not ranked), the entry of a node is
    [candidate.get(node, 0) - observed[node]], and the entries are sorted
    non-decreasing by delta. *)
Theorem rank_changes_spec
    (observed_scores : list (Z * float)) (candidate_scores : gmap Z float) :
  NoDup observed_scores.*1 →
  (∀ node a, (node, a) ∈ observed_scores → F64.is_finite a = true) →
  (∀ node b, candidate_scores !! node = Some b → F64.is_finite b = true) →
  length (rank_changes observed_scores candidate_scores) = length observed_scores ∧
  (rank_changes observed_scores candidate_scores).*1 ≡ₚ observed_scores.*1 ∧
  (∀ node delta,
     (node, delta) ∈ rank_changes observed_scores candidate_scores ↔
     ∃ a, (node, a) ∈ observed_scores ∧
          delta = (get0 candidate_scores node - a)%float) ∧
  StronglySorted (λ x y, F64.lt y.2 x.2 = false)
    (rank_changes observed_scores candidate_scores).
Proof.
  intros Hnd Hobs Hcand. apply rank_changes_numbers; [done|].
  intros node a Hin. apply F64_facts.sub_finite_number.
  - unfold get0. destruct (candidate_scores !! node) as [b|] eqn:E; simpl.
    + by apply (Hcand node).
    + reflexivity.
  - by apply (Hobs node).
Qed.

Lemma rank_changes_spec_witness :
  let observed_scores := [(1%Z, 0.5%float); (2%Z, 0.25%float); (3%Z, 0.5%float)] in
  let candidate_scores : gmap Z float :=
    {[ 1%Z := 0.75%float; 2%Z := 0.5%float; 4%Z := 3%float ]} in
  length (rank_changes observed_scores candidate_scores) = length observed_scores ∧
  (rank_changes observed_scores candidate_scores).*1 ≡ₚ observed_scores.*1 ∧
  (∀ node delta,
     (node, delta) ∈ rank_changes observed_scores candidate_scores ↔
     ∃ a, (node, a) ∈ observed_scores ∧
          delta = (get0 candidate_scores node - a)%float) ∧
  StronglySorted (λ x y, F64.lt y.2 x.2 = false)
    (rank_changes observed_scores candidate_scores).
Proof.
  intros observed_scores candidate_scores.
  apply (rank_changes_spec observed_scores candidate_scores).
  - refine (bool_decide_unpack _ _). vm_compute. reflexivity.
  - intros node a Hin. unfold observed_scores in Hin.
    repeat (apply elem_of_cons in Hin as [[= -> ->]|Hin];
            [vm_compute; reflexivity|]).
    by apply elem_of_nil in Hin.
  - refine (bool_decide_unpack (map_Forall (λ _ b, F64.is_finite b = true) _) _).
    vm_compute. reflexivity.
Defined.

Example run_rank_changes :
  rank_changes [(1%Z, 0.5%float); (2%Z, 0.25%float); (3%Z, 0.5%float)]
    {[ 1%Z := 0.75%float; 2%Z := 0.5%float; 4%Z := 3%float ]}
  = [(3%Z, (-0.5)%float); (1%Z, 0.25%float); (2%Z, 0.25%float)].
Proof. vm_compute. reflexivity. Qed.

(** C8: for [n] within the ranking, the last [n] entries ("top") and the
    first [len - n] entries ("bottom") together are the ranking, every
    entry once: concatenated as selected they are a permutation of it,
    and bottom followed by top is the ranking itself. *)
Theorem select_partition (ranking : list (Z * float)) (n : nat) :
  n ≤ length ranking →
  generate_result_lists ranking n top_mode ++
    generate_result_lists ranking (length ranking - n) bottom_mode ≡ₚ ranking ∧
  generate_result_lists ranking (length ranking - n) bottom_mode ++
    generate_result_lists ranking n top_mode = ranking ∧
  length (generate_result_lists ranking n top_mode) = n ∧
  length (generate_result_lists ranking (length ranking - n) bottom_mode)
    = length ranking - n.
Proof.
  intros Hn. simpl.
  split; [|split; [|split]].
  - by rewrite Permutation_app_comm, take_drop.
  - apply take_drop.
  - rewrite length_drop. lia.
  - rewrite length_take. lia.
Qed.

Lemma select_partition_witness :
  let ranking := [(3%Z, (-0.5)%float); (1%Z, 0.25%float); (2%Z, 0.25%float)] in
  generate_result_lists ranking 1 top_mode ++
    generate_result_lists ranking (length ranking - 1) bottom_mode ≡ₚ ranking ∧
  generate_result_lists ranking (length ranking - 1) bottom_mode ++
    generate_result_lists ranking 1 top_mode = ranking ∧
  length (generate_result_lists ranking 1 top_mode) = 1 ∧
  length (generate_result_lists ranking (length ranking - 1) bottom_mode)
    = length ranking - 1.
Proof.
  intros ranking. apply (select_partition ranking 1). simpl. lia.
Defined.

(** Cell 5 asks for as many entries as the ranking has, which selects the
    whole ranking: every node change enters the gains. *)
Lemma select_all (ranking : list (Z * float)) :
  generate_result_lists ranking (length ranking) top_mode = ranking.
Proof. simpl. by rewrite Nat.sub_diag. Qed.

Lemma gains_of_lookup (ranking : list (Z * float)) node delta :
  NoDup ranking.*1 →
  gains_of ranking !! node = Some delta ↔ (node, delta) ∈ ranking.
Proof.
  intros Hnd. unfold gains_of. symmetry.
  by apply elem_of_list_to_map.
Qed.

Example run_surface_key_triples :
  surface_key_triples
    [(2, 3, 0); (1, 2, 0); (3, 1, 0); (1, 2, 0)]%Z
    [(1%Z, 0.5%float); (2%Z, 0.25%float); (3%Z, 0.5%float)]
    {[ 1%Z := 0.75%float; 2%Z := 0.5%float; 4%Z := 3%float ]}
    2 {[ 1%Z := "a"; 2%Z := "b"; 3%Z := "c" ]} {[ 0%Z := "r" ]}
  = ([(0, {| Result.idxs := Int64 2; Result.label := "a r b";
             Result.score := 0.5%float |});
      (2, {| Result.idxs := Int64 1; Result.label := "c r a";
             Result.score := (-0.25)%float |})], None).
Proof. vm_compute. reflexivity. Qed.

(** ** Cell 7: the labelling loop *)

Lemma label_of_None ents rels h t r :
  label_of ents rels h t r = None ↔
  ents !! h = None ∨ ents !! t = None ∨ rels !! r = None.
Proof.
  unfold label_of.
  destruct (ents !! h), (rels !! r), (ents !! t); simpl;
    intuition discriminate.
Qed.

Lemma dict_get_None {K V} `{EqDecision K} (d : list (K * V)) k :
  dict_get d k = None ↔ k ∉ d.*1.
Proof.
  induction d as [|[k' v'] d IH]; simpl.
  - split; [intros _; apply not_elem_of_nil|done].
  - case_decide as E.
    + subst k'. split; [done|]. intros H. destruct H. left.
    + rewrite IH, not_elem_of_cons. simpl. intuition congruence.
Qed.

Section labelling.
Context (ents rels : lookup_table) (positions : list nat) (scores : list float).
Context (Hpositions : NoDup positions).

(** The loop appends one record per row, in order, for as long as the
    rows can be labelled; it ends without exception after the last row, or
    with [LookupError] at the first row that cannot be labelled, leaving
    [results] as it was before that row. *)
Lemma label_loop_run (rows : list triple) (i : nat) (acc : list (nat * Result.t)) :
  (∀ p, p < length rows →
     ∃ tid, positions !! (i + p) = Some tid ∧ tid < length scores ∧ tid ∉ acc.*1) →
  ∃ (m : nat) (recs : list (nat * Result.t)) (status : option exn),
    label_loop ents rels positions scores i rows acc = (acc ++ recs, status) ∧
    length recs = m ∧ m ≤ length rows ∧
    (∀ p entry, recs !! p = Some entry →
       ∃ h t r label,
         positions !! (i + p) = Some entry.1 ∧
         rows !! p = Some (h, t, r) ∧
         label_of ents rels h t r = Some label ∧
         scores !! entry.1 = Some (Result.score entry.2) ∧
         Result.idxs entry.2 = Int64 t ∧
         Result.label entry.2 = label) ∧
    ((m = length rows ∧ status = None) ∨
     (status = Some LookupError ∧
      ∃ h t r, rows !! m = Some (h, t, r) ∧ label_of ents rels h t r = None)).
Proof.
  revert i acc. induction rows as [|row rows IH]; intros i acc Hpos.
  { exists 0, [], None. simpl. rewrite app_nil_r.
    split; [done|]. split; [done|]. split; [lia|]. split; [done|by left]. }
  destruct (Hpos 0) as (tid & Htid & Hlt & Hfresh); [simpl; lia|].
  rewrite Nat.add_0_r in Htid.
  destruct (lookup_lt_is_Some_2 scores tid Hlt) as [sc Hsc].
  destruct row as [[h t] r].
  simpl. unfold label_step. rewrite Htid, Hsc.
  destruct (label_of ents rels h t r) as [label|] eqn:Hlabel.
  2:{ exists 0, [], (Some LookupError). rewrite app_nil_r.
      split; [done|]. split; [done|]. split; [lia|]. split; [done|].
      right. split; [done|]. by exists h, t, r. }
  rewrite dict_set_fresh by done.
  set (rec := {| Result.idxs := Int64 t; Result.label := label; Result.score := sc |}).
  destruct (IH (S i) (acc ++ [(tid, rec)])) as (m & recs & status & Hrun & Hlen & Hm & Hrecs & Hend).
  { intros p Hp. destruct (Hpos (S p)) as (tid' & Htid' & Hlt' & Hfresh'); [simpl; lia|].
    exists tid'. replace (S i + p) with (i + S p) by lia.
    split; [done|split; [done|]].
    rewrite fmap_app. simpl. rewrite elem_of_app, list_elem_of_singleton.
    intros [?| ->]; [done|].
    pose proof (NoDup_lookup _ _ _ _ Hpositions Htid Htid'). lia. }
  exists (S m), ((tid, rec) :: recs), status.
  split; [by rewrite Hrun, <- app_assoc|].
  split; [simpl; lia|]. split; [simpl; lia|]. split.
  - intros [|p] entry Hentry; simpl in Hentry.
    + injection Hentry as <-. exists h, t, r, label.
      rewrite Nat.add_0_r. done.
    + destruct (Hrecs p entry Hentry) as (h' & t' & r' & label' & H).
      exists h', t', r', label'.
      by replace (i + S p) with (S i + p) by lia.
  - destruct Hend as [[-> ->]|[-> Hrow]]; [by left|by right].
Qed.

End labelling.

(** ** Cells 6 and 7 together *)

(** The run of [top_k]: the rows selected, the records stored and how the
    loop ended. *)
Lemma top_k_run (triples : list triple) (scores : list float) (k : Z)
    (ents rels : lookup_table) :
  length scores = length triples →
  ∃ rows recs status,
    top triples (idxs scores) k = Some rows ∧
    top_k triples scores k ents rels = (recs, status) ∧
    length rows = slice_stop k (length triples) ∧
    length recs ≤ length rows ∧
    (∀ p entry, recs !! p = Some entry →
       ∃ h t r label,
         idxs scores !! p = Some entry.1 ∧
         triples !! entry.1 = Some (h, t, r) ∧
         rows !! p = Some (h, t, r) ∧
         label_of ents rels h t r = Some label ∧
         scores !! entry.1 = Some (Result.score entry.2) ∧
         Result.idxs entry.2 = Int64 t ∧
         Result.label entry.2 = label) ∧
    ((length recs = length rows ∧ status = None) ∨
     (status = Some LookupError ∧
      ∃ h t r, rows !! length recs = Some (h, t, r) ∧
               label_of ents rels h t r = None)).
Proof.
  intros Hlen.
  destruct (top_rows scores triples k Hlen) as (rows & Htop & Hrows_len & Hrows).
  assert (Hstop : slice_stop k (length triples) ≤ length triples).
  { unfold slice_stop. destruct (0 <=? k)%Z; lia. }
  destruct (label_loop_run ents rels (idxs scores) scores (idxs_NoDup scores) rows 0 [])
    as (m & recs & status & Hrun & Hm & Hle & Hrecs & Hend).
  { intros p Hp. simpl.
    destruct (lookup_lt_is_Some_2 (idxs scores) p) as [tid Htid].
    { rewrite idxs_length. lia. }
    exists tid. split; [done|split; [|apply not_elem_of_nil]].
    apply idxs_bound. by eapply list_elem_of_lookup_2. }
  exists rows, recs, status. subst m.
  split; [done|]. split; [by unfold top_k; rewrite Htop|].
  split; [done|]. split; [done|]. split; [|done].
  intros p entry Hentry.
  destruct (Hrecs p entry Hentry) as (h & t & r & label & Hp & Hrow & H).
  exists h, t, r, label. simpl in Hp.
  split; [done|]. split; [|by split].
  rewrite Hrows in Hrow. case_decide; [|done].
  by rewrite Hp in Hrow.
Qed.






(** C6: when a row selected into [top] has a head, tail or relation id
    that its lookup table does not hold, the labelling ends with
    [LookupError], and [results] holds no record under the index of that
    triple. *)
Theorem labeler_lookup_error (triples : list triple) (scores : list float) (k : Z)
    (ents rels : lookup_table) (rows : list triple) (p : nat) (h t r : Z) :
  length scores = length triples →
  top triples (idxs scores) k = Some rows →
  rows !! p = Some (h, t, r) →
  ents !! h = None ∨ ents !! t = None ∨ rels !! r = None →
  ∃ results tid,
    top_k triples scores k ents rels = (results, Some LookupError) ∧
    idxs scores !! p = Some tid ∧
    triples !! tid = Some (h, t, r) ∧
    dict_get results tid = None.
Proof.
  intros Hlen Htop Hrow Habsent.
  apply label_of_None in Habsent.
  destruct (top_k_run triples scores k ents rels Hlen)
    as (rows' & recs & status & Htop' & Hrun & Hrows_len & Hle & Hrecs & Hend).
  rewrite Htop in Htop'. injection Htop' as <-.
  destruct (top_rows scores triples k Hlen) as (rows' & Htop' & _ & Hrows).
  rewrite Htop in Htop'. injection Htop' as <-.
  assert (Hp := Hrow). rewrite Hrows in Hp.
  case_decide; [|done].
  destruct (idxs scores !! p) as [tid|] eqn:Htid; [|done]. simpl in Hp.
  (* no record is stored for position [p] *)
  assert (Hnot : ∀ entry, recs !! p = Some entry → False).
  { intros entry He.
    destruct (Hrecs p entry He) as (h' & t' & r' & label & _ & _ & Hrow' & Hlab & _).
    rewrite Hrow in Hrow'. injection Hrow' as <- <- <-. congruence. }
  exists recs, tid. split; [|split; [done|split; [done|]]].
  - rewrite Hrun. f_equal.
    destruct Hend as [[Hfull _]|[-> _]]; [|done].
    apply lookup_lt_Some in Hrow. rewrite <- Hfull in Hrow.
    destruct (lookup_lt_is_Some_2 recs p Hrow) as [entry He].
    destruct (Hnot entry He).
  - apply dict_get_None. intros Hin.
    apply list_elem_of_fmap in Hin as (entry & -> & Hin).
    apply list_elem_of_lookup in Hin as [p' He].
    destruct (Hrecs p' entry He) as (? & ? & ? & ? & Hp' & _).
    pose proof (NoDup_lookup _ _ _ _ (idxs_NoDup scores) Hp' Htid) as ->.
    by apply (Hnot entry).
Qed.

Lemma labeler_lookup_error_witness :
  let triples := [(1, 2, 0); (2, 3, 0); (3, 1, 0)]%Z in
  let scores := [0.5; 0.25; 0.5]%float in
  let ents : lookup_table := {[ 1%Z := "a"; 3%Z := "c" ]} in
  let rels : lookup_table := {[ 0%Z := "r" ]} in
  ∃ results tid,
    top_k triples scores 100 ents rels = (results, Some LookupError) ∧
    idxs scores !! 1 = Some tid ∧
    triples !! tid = Some (1, 2, 0)%Z ∧
    dict_get results tid = None.
Proof.
  intros triples scores ents rels.
  apply (labeler_lookup_error triples scores 100 ents rels
           [(3, 1, 0); (1, 2, 0); (2, 3, 0)]%Z 1 1 2 0).
  - reflexivity.
  - vm_compute. reflexivity.
  - reflexivity.
  - right. left. vm_compute. reflexivity.
Defined.

Example run_lookup_error :
  top_k [(1, 2, 0); (2, 3, 0); (3, 1, 0)]%Z [0.5; 0.25; 0.5]%float 100
    {[ 1%Z := "a"; 3%Z := "c" ]} {[ 0%Z := "r" ]}
  = ([(2, {| Result.idxs := Int64 1; Result.label := "c r a";
             Result.score := 0.5%float |})], Some LookupError).
Proof. vm_compute. reflexivity. Qed.

(** C10, what the code stores: the record under a triple index holds the
    score computed for that index, the sum of the gains of the head and
    tail of the triple there, and the label of that triple; but under
    ['idxs'] it holds the tail id alone, not the triple. *)
Theorem result_record_fields (triples : list triple) (gains : gmap Z float) (k : Z)
    (ents rels : lookup_table) (results : list (nat * Result.t))
    (status : option exn) (tid : nat) (rec : Result.t) :
  key_triples triples gains k ents rels = (results, status) →
  (tid, rec) ∈ results →
  ∃ h t r,
    triples !! tid = Some (h, t, r) ∧
    Result.score rec = (get0 gains h + get0 gains t)%float ∧
    label_of ents rels h t r = Some (Result.label rec) ∧
    Result.idxs rec = Int64 t ∧
    Result.idxs rec ≠ Row (h, t, r).
Proof.
  intros Hrun Hin. unfold key_triples in Hrun.
  destruct (top_k_run triples (trip_scores triples gains) k ents rels
              (trip_scores_length triples gains))
    as (rows & recs & status' & _ & Hrun' & _ & _ & Hrecs & _).
  rewrite Hrun in Hrun'. injection Hrun' as <- <-.
  apply list_elem_of_lookup in Hin as [p Hp].
  destruct (Hrecs p _ Hp) as (h & t & r & label & _ & Htid & _ & Hlab & Hsc & Hid & Hl).
  simpl in *. exists h, t, r.
  split; [done|]. split; [|split; [by rewrite Hl|split; [done|by rewrite Hid]]].
  rewrite trip_scores_fmap, list_lookup_fmap in Hsc.
  rewrite Htid in Hsc. simpl in Hsc. by injection Hsc.
Qed.

Lemma result_record_fields_witness :
  let triples := [(1, 2, 0)]%Z in
  let gains : gmap Z float := {[ 1%Z := 0.5%float ]} in
  let ents : lookup_table := {[ 1%Z := "a"; 2%Z := "b" ]} in
  let rels : lookup_table := {[ 0%Z := "r" ]} in
  let rec := {| Result.idxs := Int64 2; Result.label := "a r b";
                Result.score := 0.5%float |} in
  ∃ h t r,
    triples !! 0 = Some (h, t, r) ∧
    Result.score rec = (get0 gains h + get0 gains t)%float ∧
    label_of ents rels h t r = Some (Result.label rec) ∧
    Result.idxs rec = Int64 t ∧
    Result.idxs rec ≠ Row (h, t, r).
Proof.
  intros triples gains ents rels rec.
  apply (result_record_fields triples gains 100 ents rels [(0, rec)] None 0 rec).
  - vm_compute. reflexivity.
  - left.
Defined.

(** C10 at one triple: the record stored for [(1, 2, 0)] holds [2] under
    ['idxs'], where the triple was to be. *)
Lemma result_record_idxs_is_tail :
  key_triples [(1, 2, 0)]%Z {[ 1%Z := 0.5%float ]} 100
    {[ 1%Z := "a"; 2%Z := "b" ]} {[ 0%Z := "r" ]}
  = ([(0, {| Result.idxs := Int64 2; Result.label := "a r b";
             Result.score := 0.5%float |})], None) ∧
  Int64 2 ≠ Row (1, 2, 0)%Z.
Proof. split; [vm_compute; reflexivity|discriminate]. Qed.

(** * Further properties of the cells *)

(** ** Cell 3: what [np.unique] keeps *)

(** The sorted, repeat-free array and its elements. *)
Lemma np_unique_sorted (ar : list triple) :
  StronglySorted (λ a b, row_lt a b = true) (np_unique ar) ∧
  ∀ x, x ∈ np_unique ar ↔ x ∈ ar.
Proof.
  assert (Hsort : StronglySorted (λ a b, row_lt b a = false)
                    (insertion_sort row_lt ar)).
  { apply insertion_sort_ascending; [apply row_lt_asym|apply row_lt_cotrans]. }
  assert (Hperm := insertion_sort_Permutation row_lt ar).
  unfold np_unique.
  destruct (insertion_sort row_lt ar) as [|x aux].
  { apply Permutation_nil_l in Hperm as <-. split; [constructor|done]. }
  split; [by apply changes_sorted|].
  intros y. by rewrite changes_elem_of, Hperm.
Qed.

Lemma row_lt_sorted_NoDup (l : list triple) :
  StronglySorted (λ a b, row_lt a b = true) l → NoDup l.
Proof. apply StronglySorted_irrefl_NoDup, row_lt_irrefl. Qed.

Lemma row_lt_sorted_unique (l1 l2 : list triple) :
  StronglySorted (λ a b, row_lt a b = true) l1 →
  StronglySorted (λ a b, row_lt a b = true) l2 →
  (∀ x, x ∈ l1 ↔ x ∈ l2) →
  l1 = l2.
Proof.
  intros H1 H2 Hel.
  assert (Hanti : AntiSymm (=) (λ a b : triple, row_lt a b = true)).
  { intros a b Hab Hba. pose proof (row_lt_asym a b Hab). congruence. }
  apply (StronglySorted_unique (λ a b, row_lt a b = true)); [done..|].
  apply NoDup_Permutation; [by apply row_lt_sorted_NoDup..|done].
Qed.

(** X1: The observed triples depend on the set of rows of the file alone: two
    files with the same rows, in any order and with any repetitions, give
    the same [triples] array, and so the same results. *)
Theorem observed_triples_set (rows rows' : list triple) :
  (∀ x, x ∈ rows ↔ x ∈ rows') →
  observed_triples rows = observed_triples rows' ∧
  ∀ observed_scores candidate_scores num_results ents rels,
    surface_key_triples rows observed_scores candidate_scores num_results ents rels
    = surface_key_triples rows' observed_scores candidate_scores num_results ents rels.
Proof.
  intros Hset.
  assert (E : observed_triples rows = observed_triples rows').
  { unfold observed_triples.
    destruct (np_unique_sorted rows) as (Hs & Hel).
    destruct (np_unique_sorted rows') as (Hs' & Hel').
    apply row_lt_sorted_unique; [done..|].
    intros x. by rewrite Hel, Hel', Hset. }
  split; [done|]. intros. unfold surface_key_triples. by rewrite E.
Qed.

Lemma observed_triples_set_witness :
  let rows := [(2, 3, 0); (1, 2, 0); (2, 3, 0)]%Z in
  let rows' := [(1, 2, 0); (2, 3, 0)]%Z in
  observed_triples rows = observed_triples rows' ∧
  ∀ observed_scores candidate_scores num_results ents rels,
    surface_key_triples rows observed_scores candidate_scores num_results ents rels
    = surface_key_triples rows' observed_scores candidate_scores num_results ents rels.
Proof.
  intros rows rows'. apply (observed_triples_set rows rows').
  intros x. unfold rows, rows'. rewrite !elem_of_cons, elem_of_nil. tauto.
Defined.

(** X2: De-duplicating loses nothing but repeats: the array is never longer
    than the file, and a file without repeated rows keeps all its rows.
    Loading the array again as a file returns it unchanged. *)
Theorem observed_triples_keeps (rows : list triple) :
  length (observed_triples rows) ≤ length rows ∧
  (NoDup rows → observed_triples rows ≡ₚ rows) ∧
  observed_triples (observed_triples rows) = observed_triples rows.
Proof.
  unfold observed_triples.
  destruct (np_unique_sorted rows) as (Hs & Hel).
  assert (Hnd := row_lt_sorted_NoDup _ Hs).
  split; [|split].
  - apply submseteq_length, NoDup_submseteq; [done|].
    intros x. by rewrite Hel.
  - intros Hrows. by apply NoDup_Permutation.
  - destruct (np_unique_sorted (np_unique rows)) as (Hs' & Hel').
    by apply row_lt_sorted_unique.
Qed.

Lemma observed_triples_keeps_witness :
  let rows := [(2, 3, 0); (1, 2, 0); (3, 1, 0)]%Z in
  length (observed_triples rows) ≤ length rows ∧
  observed_triples rows ≡ₚ rows ∧
  observed_triples (observed_triples rows) = observed_triples rows.
Proof.
  intros rows.
  destruct (observed_triples_keeps rows) as (Hlen & Hperm & Hidem).
  split; [exact Hlen|split; [|exact Hidem]].
  apply Hperm. refine (bool_decide_unpack _ _). vm_compute. reflexivity.
Defined.

(** ** Cell 6: scores and selection *)

Lemma SF64add_comm x y : SF64add x y = SF64add y x.
Proof.
  unfold SF64add, SFadd.
  destruct x as [sx|sx| |sx mx ex], y as [sy|sy| |sy my ey]; try reflexivity.
  - by destruct sx, sy.
  - by destruct sx, sy.
  - rewrite (Z.min_comm ey ex), Z.add_comm. reflexivity.
Qed.

(** Binary64 addition is commutative. *)
Lemma float_add_comm (x y : float) : (x + y = y + x)%float.
Proof.
  apply Prim2SF_inj. rewrite !FloatAxioms.add_spec. apply SF64add_comm.
Qed.

(** X3: The score of a triple does not depend on its direction: with head and
    tail swapped in every row the scores are the same, position by
    position. *)
Theorem trip_scores_swap (triples : list triple) (gains : gmap Z float) :
  trip_scores ((λ trip : triple, (trip.1.2, trip.1.1, trip.2)) <$> triples) gains
  = trip_scores triples gains.
Proof.
  rewrite !trip_scores_fmap, <- list_fmap_compose.
  apply list_fmap_ext. intros _ [[h t] r] _. simpl.
  apply float_add_comm.
Qed.

(** X4: The scores read [gains] at the heads and tails of the triples and
    nowhere else: two gains mappings that agree on those ids give the same
    scores, whatever they hold for other nodes. *)
Theorem trip_scores_gains_agree (triples : list triple) (gains gains' : gmap Z float) :
  (∀ h t r, (h, t, r) ∈ triples →
     get0 gains h = get0 gains' h ∧ get0 gains t = get0 gains' t) →
  trip_scores triples gains = trip_scores triples gains'.
Proof.
  intros Hagree. rewrite !trip_scores_fmap.
  apply list_fmap_ext. intros i [[h t] r] Hi. simpl.
  destruct (Hagree h t r) as [-> ->]; [|done].
  by eapply list_elem_of_lookup_2.
Qed.

Lemma trip_scores_gains_agree_witness :
  trip_scores [(1, 2, 0); (2, 1, 1)]%Z {[ 1%Z := 0.5%float ]}
  = trip_scores [(1, 2, 0); (2, 1, 1)]%Z {[ 1%Z := 0.5%float; 7%Z := 3%float ]}.
Proof.
  apply (trip_scores_gains_agree [(1, 2, 0); (2, 1, 1)]%Z
           {[ 1%Z := 0.5%float ]} {[ 1%Z := 0.5%float; 7%Z := 3%float ]}).
  intros h t r Hin.
  repeat (apply elem_of_cons in Hin as [[= -> -> ->]|Hin];
          [split; vm_compute; reflexivity|]).
  by apply elem_of_nil in Hin.
Defined.

(** X5: When [gains] holds none of the heads and tails, every triple scores
    zero. *)
Theorem trip_scores_no_gains (triples : list triple) (gains : gmap Z float) :
  (∀ h t r, (h, t, r) ∈ triples → gains !! h = None ∧ gains !! t = None) →
  trip_scores triples gains = replicate (length triples) 0%float.
Proof.
  intros Hnone. rewrite trip_scores_fmap.
  apply list_eq. intros i. rewrite list_lookup_fmap.
  destruct (triples !! i) as [[[h t] r]|] eqn:Hi; simpl.
  - destruct (Hnone h t r) as [Hh Ht]; [by eapply list_elem_of_lookup_2|].
    unfold get0. rewrite Hh, Ht. simpl.
    symmetry. apply lookup_replicate. split; [|by eapply lookup_lt_Some].
    vm_compute. reflexivity.
  - symmetry. apply lookup_replicate_None. by apply lookup_ge_None.
Qed.

Lemma trip_scores_no_gains_witness :
  trip_scores [(1, 2, 0); (2, 3, 0)]%Z {[ 7%Z := 0.5%float ]}
  = replicate (length [(1, 2, 0); (2, 3, 0)]%Z) 0%float.
Proof.
  apply (trip_scores_no_gains [(1, 2, 0); (2, 3, 0)]%Z {[ 7%Z := 0.5%float ]}).
  intros h t r Hin.
  repeat (apply elem_of_cons in Hin as [[= -> -> ->]|Hin];
          [split; vm_compute; reflexivity|]).
  by apply elem_of_nil in Hin.
Defined.




(** X7: A NaN among the scores is listed before every score that is a number:
    numpy sorts NaN last and the reversal brings it to the front. *)
Theorem idxs_nan_first (scores : list float) (i j : nat) :
  i < length scores → j < length scores →
  F64.is_nan (item scores i) = true →
  F64.is_nan (item scores j) = false →
  precedes (idxs scores) i j.
Proof.
  intros Hi Hj Hnan Hnum.
  apply idxs_bound, list_elem_of_lookup in Hi as [p Hp].
  apply idxs_bound, list_elem_of_lookup in Hj as [q Hq].
  exists p, q. split; [|done].
  destruct (decide (p < q)) as [|Hge]; [done|]. exfalso.
  assert (Hne : p ≠ q).
  { intros ->. rewrite Hp in Hq. injection Hq as ->. congruence. }
  assert (Hqp : q < p) by lia.
  destruct (StronglySorted_lookup _ _ q p j i (idxs_sorted scores) Hqp Hq Hp)
    as [Hlt _].
  unfold F64.np_lt in Hlt. rewrite Hnan, Hnum in Hlt.
  simpl in Hlt. by rewrite orb_true_r in Hlt.
Qed.

Lemma idxs_nan_first_witness :
  precedes (idxs [0.5; nan; 0.25]%float) 1 0.
Proof.
  apply (idxs_nan_first [0.5; nan; 0.25]%float 1 0); vm_compute; (reflexivity || lia).
Defined.



(** X9: Distinct triples stay distinct in the selection: when no row of
    [triples] is repeated, as after [np.unique], no row of [top] is. *)
Theorem top_NoDup (triples : list triple) (scores : list float) (k : Z)
    (rows : list triple) :
  length scores = length triples →
  NoDup triples →
  top triples (idxs scores) k = Some rows →
  NoDup rows.
Proof.
  intros Hlen Hnd Htop.
  destruct (top_rows scores triples k Hlen) as (rows' & Htop' & _ & Hrows).
  rewrite Htop in Htop'. injection Htop' as <-.
  apply NoDup_alt. intros p q row Hp Hq.
  rewrite Hrows in Hp, Hq.
  case_decide; [|done]. case_decide; [|done].
  destruct (idxs scores !! p) as [a|] eqn:Ha; [|done].
  destruct (idxs scores !! q) as [b|] eqn:Hb; [|done].
  simpl in Hp, Hq.
  pose proof (NoDup_lookup _ _ _ _ Hnd Hp Hq) as ->.
  by apply (NoDup_lookup _ _ _ _ (idxs_NoDup scores) Ha Hb).
Qed.

Lemma top_NoDup_witness :
  NoDup [(3, 1, 0); (1, 2, 0)]%Z.
Proof.
  apply (top_NoDup (observed_triples [(2, 3, 0); (1, 2, 0); (3, 1, 0); (1, 2, 0)]%Z)
           [0.5; 0.25; 0.75]%float 2).
  - vm_compute. reflexivity.
  - refine (bool_decide_unpack _ _). vm_compute. reflexivity.
  - vm_compute. reflexivity.
Defined.

(** ** Cell 5: what the sort of the node changes keeps *)

(** A list already in order comes back from the insertion sort as it is. *)
Lemma insertion_sort_sorted_id {A} (lt : A → A → bool) l :
  StronglySorted (λ x y, lt y x = false) l → insertion_sort lt l = l.
Proof.
  induction l as [|x l IH] using rev_ind; intros Hs; [done|].
  apply StronglySorted_app in Hs as (Hx & Hl & _).
  specialize (IH Hl). unfold insertion_sort in *.
  rewrite insertion_run_snoc.
  assert (Hrun : insertion_run lt l = reverse l).
  { by rewrite <- IH at 2; rewrite reverse_involutive. }
  assert (insert_by (λ y x0, lt x0 y) x (insertion_run lt l)
          = x :: insertion_run lt l) as ->.
  { destruct (insertion_run lt l) as [|y run] eqn:E; [done|]. simpl.
    rewrite (Hx y x); [done| |by left].
    apply elem_of_reverse. rewrite <- Hrun. left. }
  by rewrite reverse_cons, IH.
Qed.

(** Elements that the comparison does not separate leave the insertion
    sort in the order in which they entered it. *)
Lemma insertion_sort_stable {A} (lt : A → A → bool) l p q x y :
  p < q →
  insertion_sort lt l !! p = Some x → insertion_sort lt l !! q = Some y →
  lt x y = false → precedes l x y.
Proof.
  intros Hpq Hp Hq Hxy.
  assert (Hs : StronglySorted (λ a b, lt b a = false → precedes l b a)
                 (insertion_run lt l)).
  { apply insertion_run_sorted.
    - intros l1 a l2 b -> Hb Hab Hab'. congruence.
    - intros l1 a l2 b -> Hb _ _.
      apply list_elem_of_lookup in Hb as [i Hi].
      exists i, (length l1). split; [by eapply lookup_lt_Some|].
      split; [by apply lookup_app_l_Some|by rewrite list_lookup_middle].
    - intros l1 a l2 b c -> _ Hc _ _ _.
      apply list_elem_of_lookup in Hc as [i Hi].
      exists i, (length l1). split; [by eapply lookup_lt_Some|].
      split; [by apply lookup_app_l_Some|by rewrite list_lookup_middle]. }
  apply StronglySorted_reverse in Hs.
  by apply (StronglySorted_lookup _ _ p q x y Hs Hpq Hp Hq).
Qed.

Lemma dict_get_Some {K V} `{EqDecision K} (d : list (K * V)) k v :
  NoDup d.*1 → dict_get d k = Some v ↔ (k, v) ∈ d.
Proof.
  induction d as [|[k' v'] d IH]; simpl; intros Hnd.
  { split; [done|]. intros H. by apply elem_of_nil in H. }
  apply NoDup_cons in Hnd as [Hk' Hnd].
  case_decide as E.
  - subst k'. split.
    + intros [= ->]. left.
    + intros [[= ->]|Hin]%elem_of_cons; [done|].
      destruct Hk'. apply list_elem_of_fmap. by exists (k, v).
  - rewrite (IH Hnd). split; [by right|].
    intros [[= -> ->]|Hin]%elem_of_cons; [done|done].
Qed.

(** X10: Sorting the node changes reorders the dict and nothing else: every
    node keeps its delta, and a node that was not in the dict is not in
    the sorted one. *)
Theorem sort_changes_lookup (result : list (Z * float)) (node : Z) :
  NoDup result.*1 →
  dict_get (sort_changes result) node = dict_get result node ∧
  NoDup (sort_changes result).*1 ∧
  length (sort_changes result) = length result.
Proof.
  intros Hnd. rewrite sort_changes_sorted by done.
  assert (Hperm := py_sorted_Permutation snd result).
  assert (Hnd' : NoDup (py_sorted snd result).*1) by by rewrite Hperm.
  split; [|split; [done|by rewrite Hperm]].
  destruct (dict_get result node) as [delta|] eqn:E.
  - apply dict_get_Some; [done|]. rewrite Hperm. by apply dict_get_Some.
  - apply dict_get_None. rewrite Hperm. by apply dict_get_None.
Qed.

Lemma sort_changes_lookup_witness :
  let result := [(1%Z, 0.25%float); (2%Z, 0.25%float); (3%Z, (-0.5)%float)] in
  dict_get (sort_changes result) 3%Z = dict_get result 3%Z ∧
  NoDup (sort_changes result).*1 ∧
  length (sort_changes result) = length result.
Proof.
  intros result. apply (sort_changes_lookup result 3%Z).
  refine (bool_decide_unpack _ _). vm_compute. reflexivity.
Defined.

(** X11: The sort of the node changes is stable: of two nodes with deltas that
    [<] does not separate, the one listed first in the sorted dict is the
    one that came first in the dict before sorting. *)
Theorem sort_changes_stable (result : list (Z * float)) (p q : nat)
    (x y : Z * float) :
  NoDup result.*1 →
  (∀ item, item ∈ result → F64.is_nan item.2 = false) →
  p < q →
  sort_changes result !! p = Some x → sort_changes result !! q = Some y →
  F64.lt x.2 y.2 = false →
  precedes result x y.
Proof.
  intros Hnd _ Hpq Hp Hq Hxy.
  rewrite sort_changes_sorted in Hp, Hq by done.
  by apply (insertion_sort_stable (λ a b, F64.lt a.2 b.2) result p q x y).
Qed.

Lemma sort_changes_stable_witness :
  precedes [(2%Z, 0.25%float); (1%Z, 0.25%float); (3%Z, (-0.5)%float)]
           (2%Z, 0.25%float) (1%Z, 0.25%float).
Proof.
  apply (sort_changes_stable
           [(2%Z, 0.25%float); (1%Z, 0.25%float); (3%Z, (-0.5)%float)] 1 2).
  - refine (bool_decide_unpack _ _). vm_compute. reflexivity.
  - intros item Hin.
    repeat (apply elem_of_cons in Hin as [->|Hin]; [vm_compute; reflexivity|]).
    by apply elem_of_nil in Hin.
  - lia.
  - vm_compute. reflexivity.
  - vm_compute. reflexivity.
  - vm_compute. reflexivity.
Defined.

(** X12: A dict of node changes that is already in non-decreasing order of
    delta is returned as it is. *)
Theorem sort_changes_fixed (result : list (Z * float)) :
  NoDup result.*1 →
  StronglySorted (λ x y, F64.lt y.2 x.2 = false) result →
  sort_changes result = result.
Proof.
  intros Hnd Hs. rewrite sort_changes_sorted by done.
  by apply (insertion_sort_sorted_id (λ a b, F64.lt a.2 b.2)).
Qed.

Lemma sort_changes_fixed_witness :
  sort_changes [(3%Z, (-0.5)%float); (2%Z, 0.25%float); (1%Z, 0.25%float)]
  = [(3%Z, (-0.5)%float); (2%Z, 0.25%float); (1%Z, 0.25%float)].
Proof.
  apply (sort_changes_fixed
           [(3%Z, (-0.5)%float); (2%Z, 0.25%float); (1%Z, 0.25%float)]).
  - refine (bool_decide_unpack _ _). vm_compute. reflexivity.
  - repeat (constructor; [|repeat (constructor; [vm_compute; reflexivity|])]);
      constructor.
Defined.

(** X13: Sorting the node changes a second time changes nothing. *)
Theorem sort_changes_idempotent (result : list (Z * float)) :
  NoDup result.*1 →
  (∀ item, item ∈ result → F64.is_nan item.2 = false) →
  sort_changes (sort_changes result) = sort_changes result.
Proof.
  intros Hnd Hnum.
  rewrite (sort_changes_sorted result) by done.
  rewrite sort_changes_sorted by by rewrite py_sorted_Permutation.
  apply (insertion_sort_sorted_id (λ a b, F64.lt a.2 b.2)).
  by apply py_sorted_ascending.
Qed.

Lemma sort_changes_idempotent_witness :
  let result := [(2%Z, 0.25%float); (1%Z, 0.25%float); (3%Z, (-0.5)%float)] in
  sort_changes (sort_changes result) = sort_changes result.
Proof.
  intros result. apply (sort_changes_idempotent result).
  - refine (bool_decide_unpack _ _). vm_compute. reflexivity.
  - intros item Hin. unfold result in Hin.
    repeat (apply elem_of_cons in Hin as [->|Hin]; [vm_compute; reflexivity|]).
    by apply elem_of_nil in Hin.
Defined.

(** ** Cells 6 and 7: the results *)


(** X15: The results are listed best first, each triple index once: of two
    records the later one has another index and no greater score. *)
Theorem results_descending (triples : list triple) (gains : gmap Z float) (k : Z)
    (ents rels : lookup_table) (results : list (nat * Result.t))
    (status : option exn) (p q : nat) (x y : nat * Result.t) :
  key_triples triples gains k ents rels = (results, status) →
  p < q → results !! p = Some x → results !! q = Some y →
  x.1 ≠ y.1 ∧ F64.lt (Result.score x.2) (Result.score y.2) = false.
Proof.
  intros Hrun Hpq Hp Hq. unfold key_triples in Hrun.
  set (scores := trip_scores triples gains) in *.
  destruct (top_k_run triples scores k ents rels (trip_scores_length triples gains))
    as (rows & recs & status' & _ & Hrun' & _ & _ & Hrecs & _).
  rewrite Hrun in Hrun'. injection Hrun' as <- <-.
  destruct (Hrecs p x Hp) as (? & ? & ? & ? & Hip & _ & _ & _ & Hsp & _).
  destruct (Hrecs q y Hq) as (? & ? & ? & ? & Hiq & _ & _ & _ & Hsq & _).
  destruct (idxs_order scores p q x.1 y.1 Hpq Hip Hiq) as (Hne & Hlt & _).
  split; [done|]. unfold item in Hlt. by rewrite Hsp, Hsq in Hlt.
Qed.

Lemma results_descending_witness :
  (2 : nat) ≠ 0 ∧ F64.lt 0.5%float 0.25%float = false.
Proof.
  apply (results_descending [(1, 2, 0); (2, 3, 0); (3, 1, 0)]%Z
           {[ 1%Z := 0.5%float; 2%Z := (-0.25)%float ]} 2
           {[ 1%Z := "a"; 2%Z := "b"; 3%Z := "c" ]} {[ 0%Z := "r" ]}
           [(2, {| Result.idxs := Int64 1; Result.label := "c r a";
                   Result.score := 0.5%float |});
            (0, {| Result.idxs := Int64 2; Result.label := "a r b";
                   Result.score := 0.25%float |})]
           None 0 1
           (2, {| Result.idxs := Int64 1; Result.label := "c r a";
                  Result.score := 0.5%float |})
           (0, {| Result.idxs := Int64 2; Result.label := "a r b";
                  Result.score := 0.25%float |})).
  - vm_compute. reflexivity.
  - lia.
  - reflexivity.
  - reflexivity.
Defined.

(** X16: The labelling completes exactly when every selected row can be
    labelled; ids missing from the tables matter only for the rows in
    [top].  When it completes, the results hold one record per selected
    row, under the indices that [idxs] lists first. *)
Theorem results_complete (triples : list triple) (scores : list float) (k : Z)
    (ents rels : lookup_table) (rows : list triple) :
  length scores = length triples →
  top triples (idxs scores) k = Some rows →
  ((top_k triples scores k ents rels).2 = None ↔
   ∀ h t r, (h, t, r) ∈ rows → is_Some (label_of ents rels h t r)) ∧
  ((top_k triples scores k ents rels).2 = None →
   (top_k triples scores k ents rels).1.*1 = take (length rows) (idxs scores) ∧
   length rows = slice_stop k (length triples)).
Proof.
  intros Hlen Htop.
  destruct (top_k_run triples scores k ents rels Hlen)
    as (rows' & recs & status & Htop' & -> & Hrows_len & Hle & Hrecs & Hend).
  rewrite Htop in Htop'. injection Htop' as <-. simpl.
  assert (Hkeys : ∀ p tid, recs.*1 !! p = Some tid → idxs scores !! p = Some tid).
  { intros p tid Hp. rewrite list_lookup_fmap in Hp.
    destruct (recs !! p) as [entry|] eqn:He; [|done]. injection Hp as <-.
    by destruct (Hrecs p entry He) as (? & ? & ? & ? & ? & _). }
  split; [split|].
  - intros ->. destruct Hend as [[Hfull _]|[? _]]; [|done].
    intros h t r [p Hp]%list_elem_of_lookup.
    destruct (lookup_lt_is_Some_2 recs p) as [entry He].
    { rewrite Hfull. by eapply lookup_lt_Some. }
    destruct (Hrecs p entry He) as (h' & t' & r' & label & _ & _ & Hrow & Hlab & _).
    rewrite Hp in Hrow. injection Hrow as <- <- <-. by exists label.
  - intros Hall. destruct Hend as [[_ ->]|[_ (h & t & r & Hrow & Hnone)]]; [done|].
    apply list_elem_of_lookup_2 in Hrow.
    destruct (Hall h t r Hrow) as [? ?]. congruence.
  - intros ->. destruct Hend as [[Hfull _]|[? _]]; [|done].
    split; [|done].
    apply (list_eq_same_length _ _ (length rows)).
    + rewrite length_take, idxs_length, Hlen, Hrows_len.
      unfold slice_stop. destruct (0 <=? k)%Z; lia.
    + by rewrite length_fmap.
    + intros p x y _ Hx Hy. apply Hkeys in Hx.
      apply lookup_take_Some in Hy as [Hy _]. congruence.
Qed.

Lemma results_complete_witness :
  let triples := [(1, 2, 0); (2, 3, 0); (9, 9, 9)]%Z in
  let scores := [0.5; 0.25; 0]%float in
  let ents : lookup_table := {[ 1%Z := "a"; 2%Z := "b"; 3%Z := "c" ]} in
  let rels : lookup_table := {[ 0%Z := "r" ]} in
  let rows := [(1, 2, 0); (2, 3, 0)]%Z in
  (∀ h t r, (h, t, r) ∈ rows → is_Some (label_of ents rels h t r)) ∧
  (top_k triples scores 2 ents rels).1.*1 = take (length rows) (idxs scores) ∧
  length rows = slice_stop 2 (length triples).
Proof.
  intros triples scores ents rels rows.
  destruct (results_complete triples scores 2 ents rels rows) as [Hiff Hkeys].
  - reflexivity.
  - vm_compute. reflexivity.
  - assert (Hnone : (top_k triples scores 2 ents rels).2 = None)
      by (vm_compute; reflexivity).
    split; [by apply Hiff|by apply Hkeys].
Defined.

(** X17: The labelling stops at the first selected row that cannot be
    labelled and keeps what it stored before: the results then hold the
    records of exactly the rows ahead of that one. *)
Theorem results_before_failure (triples : list triple) (scores : list float) (k : Z)
    (ents rels : lookup_table) (rows : list triple) (p : nat) (h t r : Z) :
  length scores = length triples →
  top triples (idxs scores) k = Some rows →
  rows !! p = Some (h, t, r) →
  label_of ents rels h t r = None →
  (∀ q h' t' r', q < p → rows !! q = Some (h', t', r') →
     is_Some (label_of ents rels h' t' r')) →
  (top_k triples scores k ents rels).2 = Some LookupError ∧
  (top_k triples scores k ents rels).1.*1 = take p (idxs scores).
Proof.
  intros Hlen Htop Hrow Hnone Hbefore.
  destruct (top_k_run triples scores k ents rels Hlen)
    as (rows' & recs & status & Htop' & -> & Hrows_len & Hle & Hrecs & Hend).
  rewrite Htop in Htop'. injection Htop' as <-. simpl.
  assert (Hnot : ¬ p < length recs).
  { intros Hp. destruct (lookup_lt_is_Some_2 recs p Hp) as [entry He].
    destruct (Hrecs p entry He) as (h' & t' & r' & label & _ & _ & Hrow' & Hlab & _).
    rewrite Hrow in Hrow'. injection Hrow' as <- <- <-. congruence. }
  assert (Hp := lookup_lt_Some _ _ _ Hrow).
  destruct Hend as [[Hfull _]|[-> (h' & t' & r' & Hrow' & Hnone')]]; [lia|].
  assert (Hlen_recs : length recs = p).
  { destruct (decide (length recs < p)) as [Hlt|]; [|lia].
    destruct (Hbefore _ _ _ _ Hlt Hrow') as [? ?]. congruence. }
  split; [done|].
  apply (list_eq_same_length _ _ p).
  - rewrite length_take, idxs_length, Hlen, Hrows_len in *.
    unfold slice_stop in *. destruct (0 <=? k)%Z; lia.
  - by rewrite length_fmap.
  - intros i x y _ Hx Hy. rewrite list_lookup_fmap in Hx.
    destruct (recs !! i) as [entry|] eqn:He; [|done]. injection Hx as <-.
    destruct (Hrecs i entry He) as (? & ? & ? & ? & Hi & _).
    apply lookup_take_Some in Hy as [Hy _]. congruence.
Qed.

Lemma results_before_failure_witness :
  let triples := [(1, 2, 0); (2, 3, 0); (3, 1, 0)]%Z in
  let scores := [0.5; 0.25; 0.5]%float in
  let ents : lookup_table := {[ 1%Z := "a"; 3%Z := "c" ]} in
  let rels : lookup_table := {[ 0%Z := "r" ]} in
  (top_k triples scores 100 ents rels).2 = Some LookupError ∧
  (top_k triples scores 100 ents rels).1.*1 = take 1 (idxs scores).
Proof.
  intros triples scores ents rels.
  apply (results_before_failure triples scores 100 ents rels
           [(3, 1, 0); (1, 2, 0); (2, 3, 0)]%Z 1 1 2 0).
  - reflexivity.
  - vm_compute. reflexivity.
  - reflexivity.
  - vm_compute. reflexivity.
  - intros [|q] h' t' r' Hq Hrow; [|lia].
    injection Hrow as <- <- <-. vm_compute. eauto.
Defined.
